(** * WinsyncLoader: a shallow embedding of WinsyncLoader.cpp

    The launcher is a single translation unit: [_tWinMain] calls
    [find_winsync], builds a command line, spawns the interpreter, waits
    for it and closes its handles; [error_exit], [error_code_exit] and
    [msg_exit] report a failure in a message box and end the process.

    Every call into Windows is kept as a call: the operating system is a
    record of state-passing functions over an arbitrary type of worlds, and
    a run of the program yields its result, the final world and the list of
    the calls it made, in order, with their arguments and their answers.
    The general theorems hold for every such operating system; where one
    needs a documented property of a call, it is a hypothesis.

    The enumeration loop of [find_winsync] runs for as long as the
    operating system answers ERROR_SUCCESS, so it takes fuel; a run cut
    short is [Unfinished], and a run that ends is the same with any larger
    fuel ([find_winsync_extends]).  [FormatMessage] is taken to yield a
    message for every code. *)

From Stdlib Require Import ZArith List String Ascii Bool Lia DecimalString.
From Stdlib Require DecimalFacts DecimalPos Sorted.
Import ListNotations.

Local Open Scope string_scope.
Local Open Scope list_scope.
Local Open Scope Z_scope.

(** ** Machine data *)

Definition DWORD := Z.
Definition HKEY := Z.
Definition HANDLE := Z.

(** [DWORD index] is incremented with [index++]: 32-bit wrap-around. *)
Definition DWORD_incr (d : DWORD) : DWORD := (d + 1) mod 2 ^ 32.

(** Constants of the Windows SDK headers that the source names. *)
Definition MAX_PATH : Z := 260.
Definition ERROR_SUCCESS : DWORD := 0.
Definition ERROR_NO_MORE_ITEMS : DWORD := 259.
Definition INVALID_FILE_ATTRIBUTES : DWORD := 0xFFFFFFFF.
Definition HKEY_LOCAL_MACHINE : HKEY := 0x80000002.
Definition KEY_READ : DWORD := 0x20019.
Definition KEY_ENUMERATE_SUB_KEYS : DWORD := 0x0008.
Definition RRF_RT_REG_SZ : DWORD := 0x00000002.
Definition CREATE_NEW_CONSOLE : DWORD := 0x00000010.
Definition CREATE_PRESERVE_CODE_AUTHZ_LEVEL : DWORD := 0x02000000.
Definition STARTF_USESHOWWINDOW : DWORD := 0x00000001.
Definition SW_SHOW : DWORD := 5.
Definition INFINITE : DWORD := 0xFFFFFFFF.
Definition WAIT_OBJECT_0 : DWORD := 0.
Definition WAIT_ABANDONED : DWORD := 0x00000080.
Definition WAIT_TIMEOUT : DWORD := 0x00000102.
Definition WAIT_FAILED : DWORD := 0xFFFFFFFF.
Definition MB_OK : DWORD := 0x00000000.
Definition MB_ICONERROR : DWORD := 0x00000010.

(** The two entries of [LPTSTR keys[2]] in [find_winsync]. *)
Definition keys (i : nat) : string :=
  match i with
  | O => "SOFTWARE\Python\PythonCore"
  | _ => "SOFTWARE\Wow6432Node\Python\PythonCore"
  end.

(** ** Strings in fixed buffers

    A [TCHAR] buffer holds a NUL-terminated string; the model keeps the
    characters before the terminator.  A string of [n] characters needs
    [n + 1] elements of a buffer. *)

Definition tlen (s : string) : Z := Z.of_nat (String.length s).

(** [_tcscpy_s(dest, cap, src)]: the copy is made when [src] and its
    terminator fit in [cap] elements; otherwise the C runtime invokes its
    invalid-parameter handler ([None]). *)
Definition tcscpy_s (cap : Z) (src : string) : option string :=
  if tlen src + 1 <=? cap then Some src else None.

(** [_tcscat_s(dest, cap, src)]: appends to what [dest] holds, under the
    same condition on the whole result. *)
Definition tcscat_s (dest : string) (cap : Z) (src : string) : option string :=
  if tlen dest + tlen src + 1 <=? cap then Some (dest ++ src)%string else None.

(** [_tcstok_s(str, delims, &context)].  The scan starts at [str] (or at
    the saved context when [str] is NULL), skips leading delimiters, and
    returns NULL at the end of the string; otherwise the token runs up to
    the next delimiter, which is overwritten by a terminator, and the
    context is left just after it. *)
Fixpoint is_delim (delims : string) (c : ascii) : bool :=
  match delims with
  | EmptyString => false
  | String d ds => if Ascii.eqb c d then true else is_delim ds c
  end.

Fixpoint skip_delims (delims s : string) : string :=
  match s with
  | EmptyString => EmptyString
  | String c s' => if is_delim delims c then skip_delims delims s' else s
  end.

Fixpoint scan_token (delims s : string) : string * string :=
  match s with
  | EmptyString => (EmptyString, EmptyString)
  | String c s' =>
      if is_delim delims c then (EmptyString, s')
      else let (tok, ctx) := scan_token delims s' in (String c tok, ctx)
  end.

Definition tcstok_s (delims from : string) : option string * string :=
  match skip_delims delims from with
  | EmptyString => (None, EmptyString)
  | String c s' =>
      let (tok, ctx) := scan_token delims (String c s') in (Some tok, ctx)
  end.

(** [%d] applied to a [DWORD]: the 32 bits are printed as a signed [int]. *)
Definition as_int (d : DWORD) : Z :=
  let u := d mod 2 ^ 32 in if u <? 2 ^ 31 then u else u - 2 ^ 32.

Definition format_d (d : DWORD) : string :=
  NilZero.string_of_int (Z.to_int (as_int d)).

(** ** Calls into Windows *)

Record PROCESS_INFORMATION : Type := {
  hProcess : HANDLE;
  hThread : HANDLE
}.

(** The members of [STARTUPINFO] that [_tWinMain] sets; the rest is zeroed
    by [SecureZeroMemory]. *)
Record STARTUPINFO : Type := {
  dwFlags : DWORD;
  wShowWindow : DWORD
}.

(** One entry per call, with the arguments the program passed and what the
    call answered. *)
Inductive event : Type :=
| EvRegOpenKeyEx (hKey : HKEY) (lpSubKey : string) (ulOptions samDesired : DWORD)
                 (ret : DWORD) (phkResult : HKEY)
| EvRegEnumKeyEx (hKey : HKEY) (dwIndex : DWORD) (cchName : DWORD)
                 (ret : DWORD) (lpName : string) (cchOut : DWORD)
| EvRegGetValue (hKey : HKEY) (lpSubKey : string) (dwFlags : DWORD) (cbData : DWORD)
                (ret : DWORD) (pvData : string) (cbOut : DWORD)
| EvGetFileAttributes (lpFileName : string) (ret : DWORD)
| EvCreateProcess (lpCommandLine : string) (bInheritHandles : bool)
                  (dwCreationFlags : DWORD) (lpCurrentDirectory : string)
                  (lpStartupInfo : STARTUPINFO)
                  (ok : bool) (lpProcessInformation : PROCESS_INFORMATION)
| EvWaitForSingleObject (hHandle : HANDLE) (dwMilliseconds : DWORD) (ret : DWORD)
| EvCloseHandle (hObject : HANDLE) (ok : bool)
| EvGetLastError (ret : DWORD)
| EvMessageBox (lpText lpCaption : string) (uType : DWORD)
| EvExitProcess (uExitCode : DWORD).

(** The operating system.  Nothing is assumed of it: each call may answer
    anything and may change the world. *)
Record OS : Type := {
  world : Type;
  sys_RegOpenKeyEx :
    HKEY -> string -> DWORD -> DWORD -> world -> (DWORD * HKEY) * world;
  sys_RegEnumKeyEx :
    HKEY -> DWORD -> DWORD -> world -> (DWORD * string * DWORD) * world;
  sys_RegGetValue :
    HKEY -> string -> DWORD -> DWORD -> world -> (DWORD * string * DWORD) * world;
  sys_GetFileAttributes : string -> world -> DWORD * world;
  sys_CreateProcess :
    string -> bool -> DWORD -> string -> STARTUPINFO -> world ->
    (bool * PROCESS_INFORMATION) * world;
  sys_WaitForSingleObject : HANDLE -> DWORD -> world -> DWORD * world;
  sys_CloseHandle : HANDLE -> world -> bool * world;
  sys_GetLastError : world -> DWORD * world;
  sys_FormatMessage : DWORD -> world -> string;
  sys_MessageBox : string -> string -> DWORD -> world -> world
}.

(** ** How a run ends *)

Inductive result (A : Type) : Type :=
| Returned (a : A)          (* the function returned to its caller *)
| Exited (code : DWORD)     (* ExitProcess(code) *)
| Crashed                   (* invalid-parameter handler of the C runtime *)
| Unfinished.               (* the enumeration loop is still running *)

Arguments Returned {A} a.
Arguments Exited {A} code.
Arguments Crashed {A}.
Arguments Unfinished {A}.

(** ** The program *)

Section Program.

Variable os : OS.

(** A computation takes the world and gives its result, the world it
    leaves and the calls it made. *)
Definition M (A : Type) : Type :=
  world os -> result A * world os * list event.

Definition ret {A : Type} (a : A) : M A :=
  fun w => (Returned a, w, []).

Definition bind {A B : Type} (m : M A) (k : A -> M B) : M B :=
  fun w =>
    match m w with
    | (Returned a, w1, t1) =>
        match k a w1 with
        | (r, w2, t2) => (r, w2, t1 ++ t2)
        end
    | (Exited c, w1, t1) => (Exited c, w1, t1)
    | (Crashed, w1, t1) => (Crashed, w1, t1)
    | (Unfinished, w1, t1) => (Unfinished, w1, t1)
    end.

Notation "x <- m ;; k" := (bind m (fun x => k))
  (at level 61, m at next level, right associativity).
Notation "' p <- m ;; k" := (bind m (fun x => match x with p => k end))
  (at level 61, p pattern, m at next level, right associativity).

Definition crash {A : Type} : M A := fun w => (Crashed, w, []).

Definition unfinished {A : Type} : M A := fun w => (Unfinished, w, []).

(** A bounded string operation either yields the new buffer contents or
    ends the process in the invalid-parameter handler. *)
Definition bounded (o : option string) : M string :=
  match o with
  | Some s => ret s
  | None => crash
  end.

Definition RegOpenKeyEx (hKey : HKEY) (lpSubKey : string)
    (ulOptions samDesired : DWORD) : M (DWORD * HKEY) :=
  fun w =>
    match sys_RegOpenKeyEx os hKey lpSubKey ulOptions samDesired w with
    | (r, h, w') =>
        (Returned (r, h), w',
         [EvRegOpenKeyEx hKey lpSubKey ulOptions samDesired r h])
    end.

Definition RegEnumKeyEx (hKey : HKEY) (dwIndex cchName : DWORD)
    : M (DWORD * string * DWORD) :=
  fun w =>
    match sys_RegEnumKeyEx os hKey dwIndex cchName w with
    | (r, name, cch, w') =>
        (Returned (r, name, cch), w',
         [EvRegEnumKeyEx hKey dwIndex cchName r name cch])
    end.

Definition RegGetValue (hKey : HKEY) (lpSubKey : string)
    (flags cbData : DWORD) : M (DWORD * string * DWORD) :=
  fun w =>
    match sys_RegGetValue os hKey lpSubKey flags cbData w with
    | (r, data, cb, w') =>
        (Returned (r, data, cb), w',
         [EvRegGetValue hKey lpSubKey flags cbData r data cb])
    end.

Definition GetFileAttributes (lpFileName : string) : M DWORD :=
  fun w =>
    match sys_GetFileAttributes os lpFileName w with
    | (r, w') => (Returned r, w', [EvGetFileAttributes lpFileName r])
    end.

Definition CreateProcess (lpCommandLine : string) (bInheritHandles : bool)
    (dwCreationFlags : DWORD) (lpCurrentDirectory : string)
    (lpStartupInfo : STARTUPINFO) : M (bool * PROCESS_INFORMATION) :=
  fun w =>
    match sys_CreateProcess os lpCommandLine bInheritHandles dwCreationFlags
            lpCurrentDirectory lpStartupInfo w with
    | (ok, pi, w') =>
        (Returned (ok, pi), w',
         [EvCreateProcess lpCommandLine bInheritHandles dwCreationFlags
            lpCurrentDirectory lpStartupInfo ok pi])
    end.

Definition WaitForSingleObject (hHandle : HANDLE) (dwMilliseconds : DWORD)
    : M DWORD :=
  fun w =>
    match sys_WaitForSingleObject os hHandle dwMilliseconds w with
    | (r, w') => (Returned r, w', [EvWaitForSingleObject hHandle dwMilliseconds r])
    end.

Definition CloseHandle (hObject : HANDLE) : M bool :=
  fun w =>
    match sys_CloseHandle os hObject w with
    | (ok, w') => (Returned ok, w', [EvCloseHandle hObject ok])
    end.

Definition GetLastError : M DWORD :=
  fun w =>
    match sys_GetLastError os w with
    | (r, w') => (Returned r, w', [EvGetLastError r])
    end.

Definition MessageBox (lpText lpCaption : string) (uType : DWORD) : M unit :=
  fun w =>
    (Returned tt, sys_MessageBox os lpText lpCaption uType w,
     [EvMessageBox lpText lpCaption uType]).

Definition ExitProcess {A : Type} (uExitCode : DWORD) : M A :=
  fun w => (Exited uExitCode, w, [EvExitProcess uExitCode]).

(** The text [StringCchPrintf] writes with the format
    ["%s failed with error %d: %s"]; the last [%s] is the system message
    [FormatMessage] gives for the code.  The display buffer is allocated
    forty characters longer than the two strings together, which the fixed
    part of the format and the digits never exceed. *)
Definition error_text (lpszFunction : string) (error_code : DWORD)
    (lpMsgBuf : string) : string :=
  (lpszFunction ++ " failed with error " ++ format_d error_code ++ ": "
   ++ lpMsgBuf)%string.

(** Lines 180-211. *)
Definition error_code_exit {A : Type} (lpszFunction : string)
    (error_code : DWORD) : M A :=
  fun w =>
    let lpMsgBuf := sys_FormatMessage os error_code w in
    (_ <- MessageBox (error_text lpszFunction error_code lpMsgBuf) "Error"
            (Z.lor MB_ICONERROR MB_OK) ;;
     ExitProcess error_code) w.

(** Lines 175-178. *)
Definition error_exit {A : Type} (lpszFunction : string) : M A :=
  e <- GetLastError ;;
  error_code_exit lpszFunction e.

(** Lines 213-216. *)
Definition msg_exit {A : Type} (msg : string) : M A :=
  _ <- MessageBox msg "ERROR" (Z.lor MB_ICONERROR MB_OK) ;;
  ExitProcess 255.

(** *** [find_winsync] *)

(** Lines 121-144: [while (token != NULL)], for one subkey.  [Some] is
    the [return] of line 138, with what the buffer [path] holds; [None] is
    the end of the loop.  The loop runs once per token, so the length of
    the value bounds it: it is called with [n] that length. *)
Fixpoint token_loop (n : nat) (root : HKEY) (keyname : string)
    (token : option string) (tok_context : string) (path_size : DWORD)
    : M (option string) :=
  match token with
  | None => ret None
  | Some tok =>
      match n with
      | O => unfinished
      | S n' =>
          path <- bounded (tcscpy_s MAX_PATH tok) ;;
          path <- bounded (tcscat_s path MAX_PATH "\site-packages\winsync") ;;
          attrs <- GetFileAttributes path ;;
          if negb (attrs =? INVALID_FILE_ATTRIBUTES) then
            name <- bounded (tcscpy_s MAX_PATH keyname) ;;
            name <- bounded (tcscat_s name MAX_PATH "\InstallPath") ;;
            '(r, path, path_size) <-
               RegGetValue root name RRF_RT_REG_SZ path_size ;;
            if negb (r =? ERROR_SUCCESS) then
              error_code_exit "RegGetValue (installpath)" r
            else ret (Some path)
          else
            let (token', tok_context') := tcstok_s ";" tok_context in
            token_loop n' root keyname token' tok_context' path_size
      end
  end.

(** Lines 107-158: [while (ERROR_SUCCESS == ret)] and what follows it.
    The loop is entered with the answer of the [RegEnumKeyEx] call made
    just before; [index] has already been incremented.  [path_size] is
    written by [RegGetValue] and nowhere else; [name_size] is set back to
    [MAX_PATH] before each [RegEnumKeyEx].  [fuel] bounds the number of
    subkeys visited. *)
Fixpoint enum_loop (fuel : nat) (root : HKEY) (r : DWORD) (keyname : string)
    (index : DWORD) (path_size : DWORD) : M string :=
  if r =? ERROR_SUCCESS then
    match fuel with
    | O => unfinished
    | S fuel' =>
        name <- bounded (tcscpy_s MAX_PATH keyname) ;;
        name <- bounded (tcscat_s name MAX_PATH "\PythonPath") ;;
        '(r, paths, path_size) <-
           RegGetValue root name RRF_RT_REG_SZ path_size ;;
        '(found, path_size) <-
           (if r =? ERROR_SUCCESS then
              let (token, tok_context) := tcstok_s ";" paths in
              found <- token_loop (String.length paths) root keyname
                         token tok_context path_size ;;
              ret (found, path_size)
            else if negb (r =? 2) then
              error_code_exit "RegGetValue" r
            else ret (None, path_size)) ;;
        match found with
        | Some path => ret path
        | None =>
            let name_size := MAX_PATH in
            '(r, keyname, name_size) <-
               RegEnumKeyEx root index name_size ;;
            enum_loop fuel' root r keyname (DWORD_incr index) path_size
        end
    end
  else if r =? ERROR_NO_MORE_ITEMS then
    msg_exit "Could not find a WinSync install"
  else
    error_code_exit "RegEnumKeyEx" r.

(** Lines 94-103.  The second test is written under the first one's
    indentation but is not part of it: it is evaluated in both cases. *)
Definition open_PythonCore : M HKEY :=
  '(r, root) <-
     RegOpenKeyEx HKEY_LOCAL_MACHINE (keys 0) 0
       (Z.lor KEY_READ KEY_ENUMERATE_SUB_KEYS) ;;
  '(r, root) <-
     (if negb (r =? ERROR_SUCCESS) then
        RegOpenKeyEx HKEY_LOCAL_MACHINE (keys 1) 0
          (Z.lor KEY_READ KEY_ENUMERATE_SUB_KEYS)
      else ret (r, root)) ;;
  if negb (r =? ERROR_SUCCESS) then error_code_exit "RegOpenKeyEx" r
  else ret root.

(** Lines 77-159.  The value returned is what the caller's buffer [path]
    holds when the function returns. *)
Definition find_winsync (fuel : nat) : M string :=
  let index := 0 in
  let name_size := MAX_PATH in
  let path_size := MAX_PATH in
  root <- open_PythonCore ;;
  '(r, keyname, name_size) <- RegEnumKeyEx root index name_size ;;
  enum_loop fuel root r keyname (DWORD_incr index) path_size.

(** *** [_tWinMain] *)

(** Lines 26-75.  [hPrevInstance] and [hInstance] play no part; neither do
    [lpCmdLine] and [nCmdShow], which are kept as arguments. *)
Definition _tWinMain (fuel : nat) (lpCmdLine : string) (nCmdShow : Z)
    : M unit :=
  path <- find_winsync fuel ;;
  appname <- bounded (tcscpy_s MAX_PATH path) ;;
  appname <- bounded (tcscat_s appname MAX_PATH "python.exe") ;;
  appname <- bounded (tcscat_s appname MAX_PATH " -m winsync.run") ;;
  let info := {| dwFlags := STARTF_USESHOWWINDOW; wShowWindow := SW_SHOW |} in
  '(ok, processInfo) <-
     CreateProcess appname true
       (Z.lor CREATE_NEW_CONSOLE CREATE_PRESERVE_CODE_AUTHZ_LEVEL) path info ;;
  _ <- (if negb ok then error_exit "CreateProcess" else ret tt) ;;
  w <- WaitForSingleObject (hProcess processInfo) INFINITE ;;
  _ <- (if w =? WAIT_ABANDONED then msg_exit "Wait abandoned"
        else if w =? WAIT_TIMEOUT then
          msg_exit "Timout reached, should have waited indefinately."
        else if w =? WAIT_FAILED then error_exit "WaitForSingleObject"
        else ret tt) ;;
  ok <- CloseHandle (hProcess processInfo) ;;
  _ <- (if negb ok then error_exit "CloseHandle (process)" else ret tt) ;;
  ok <- CloseHandle (hThread processInfo) ;;
  if negb ok then error_exit "CloseHandle (thread)" else ret tt.

End Program.

Arguments ret {os A} a.
Arguments crash {os A}.
Arguments unfinished {os A}.

(** ** A reference machine

    For concrete runs: the calls as the Windows API documents them, over a
    machine given by its two PythonCore keys, the paths that exist on disk
    and the fate of the spawned child.  It is one inhabitant of [OS]; the
    general theorems below do not depend on it. *)

Module Win.

(** A subkey of PythonCore with the default values of its PythonPath and
    InstallPath subkeys, when they are there. *)
Record subkey : Type := {
  sk_name : string;
  sk_PythonPath : option string;
  sk_InstallPath : option string
}.

Inductive child_fate : Type :=
| ChildExits
| ChildAbandoned
| ChildTimesOut
| ChildWaitFails.

Record machine : Type := {
  PythonCore : option (list subkey);
  Wow6432Node_PythonCore : option (list subkey);
  on_disk : list string;
  unicode : bool;
  can_spawn : bool;
  child : child_fate;
  closable : HANDLE -> bool;
  last_error : DWORD
}.

Definition ERROR_FILE_NOT_FOUND : DWORD := 2.
Definition ERROR_INVALID_HANDLE : DWORD := 6.
Definition ERROR_MORE_DATA : DWORD := 234.
Definition FILE_ATTRIBUTE_DIRECTORY : DWORD := 0x10.

Definition h_PythonCore : HKEY := 0x100.
Definition h_Wow6432Node : HKEY := 0x104.

Definition set_last_error (e : DWORD) (m : machine) : machine :=
  {| PythonCore := PythonCore m;
     Wow6432Node_PythonCore := Wow6432Node_PythonCore m;
     on_disk := on_disk m;
     unicode := unicode m;
     can_spawn := can_spawn m;
     child := child m;
     closable := closable m;
     last_error := e |}.

(** A [TCHAR] takes two bytes in a Unicode build, one otherwise. *)
Definition sizeof_TCHAR (m : machine) : Z := if unicode m then 2 else 1.

Definition subkeys_of (h : HKEY) (m : machine) : list subkey :=
  if h =? h_PythonCore then
    match PythonCore m with Some l => l | None => [] end
  else if h =? h_Wow6432Node then
    match Wow6432Node_PythonCore m with Some l => l | None => [] end
  else [].

Definition RegOpenKeyEx (hKey : HKEY) (lpSubKey : string)
    (ulOptions samDesired : DWORD) (m : machine) : (DWORD * HKEY) * machine :=
  if (hKey =? HKEY_LOCAL_MACHINE)
     && String.eqb lpSubKey "SOFTWARE\Python\PythonCore"
     && match PythonCore m with Some _ => true | None => false end
  then (ERROR_SUCCESS, h_PythonCore, m)
  else if (hKey =? HKEY_LOCAL_MACHINE)
     && String.eqb lpSubKey "SOFTWARE\Wow6432Node\Python\PythonCore"
     && match Wow6432Node_PythonCore m with Some _ => true | None => false end
  then (ERROR_SUCCESS, h_Wow6432Node, m)
  else (ERROR_FILE_NOT_FOUND, 0, m).

(** [cchName] counts characters, terminator included, on the way in. *)
Definition RegEnumKeyEx (hKey : HKEY) (dwIndex cchName : DWORD) (m : machine)
    : (DWORD * string * DWORD) * machine :=
  match nth_error (subkeys_of hKey m) (Z.to_nat dwIndex) with
  | Some sk =>
      if tlen (sk_name sk) + 1 <=? cchName
      then (ERROR_SUCCESS, sk_name sk, tlen (sk_name sk), m)
      else (ERROR_MORE_DATA, EmptyString, cchName, m)
  | None => (ERROR_NO_MORE_ITEMS, EmptyString, cchName, m)
  end.

Definition default_value (lpSubKey : string) (sk : subkey) : option string :=
  if String.eqb lpSubKey (sk_name sk ++ "\PythonPath") then sk_PythonPath sk
  else if String.eqb lpSubKey (sk_name sk ++ "\InstallPath") then sk_InstallPath sk
  else None.

Fixpoint lookup_value (lpSubKey : string) (l : list subkey) : option string :=
  match l with
  | [] => None
  | sk :: l' =>
      match default_value lpSubKey sk with
      | Some v => Some v
      | None => lookup_value lpSubKey l'
      end
  end.

(** [cbData] counts bytes.  On success it receives the number of bytes
    copied, terminator included; when the buffer is too small, the number
    needed; when there is no such value it is left as it was. *)
Definition RegGetValue (hKey : HKEY) (lpSubKey : string)
    (flags cbData : DWORD) (m : machine) : (DWORD * string * DWORD) * machine :=
  match lookup_value lpSubKey (subkeys_of hKey m) with
  | Some v =>
      let needed := sizeof_TCHAR m * (tlen v + 1) in
      if needed <=? cbData then (ERROR_SUCCESS, v, needed, m)
      else (ERROR_MORE_DATA, EmptyString, needed, m)
  | None => (ERROR_FILE_NOT_FOUND, EmptyString, cbData, m)
  end.

Definition GetFileAttributes (lpFileName : string) (m : machine)
    : DWORD * machine :=
  if existsb (String.eqb lpFileName) (on_disk m)
  then (FILE_ATTRIBUTE_DIRECTORY, m)
  else (INVALID_FILE_ATTRIBUTES, set_last_error ERROR_FILE_NOT_FOUND m).

Definition CreateProcess (lpCommandLine : string) (bInheritHandles : bool)
    (dwCreationFlags : DWORD) (lpCurrentDirectory : string)
    (lpStartupInfo : STARTUPINFO) (m : machine)
    : (bool * PROCESS_INFORMATION) * machine :=
  if can_spawn m
  then (true, {| hProcess := 0x200; hThread := 0x204 |}, m)
  else (false, {| hProcess := 0; hThread := 0 |},
        set_last_error ERROR_FILE_NOT_FOUND m).

Definition WaitForSingleObject (hHandle : HANDLE) (dwMilliseconds : DWORD)
    (m : machine) : DWORD * machine :=
  match child m with
  | ChildExits => (WAIT_OBJECT_0, m)
  | ChildAbandoned => (WAIT_ABANDONED, m)
  | ChildTimesOut => (WAIT_TIMEOUT, m)
  | ChildWaitFails => (WAIT_FAILED, set_last_error ERROR_INVALID_HANDLE m)
  end.

Definition CloseHandle (hObject : HANDLE) (m : machine) : bool * machine :=
  if closable m hObject then (true, m)
  else (false, set_last_error ERROR_INVALID_HANDLE m).

Definition GetLastError (m : machine) : DWORD * machine := (last_error m, m).

Definition FormatMessage (code : DWORD) (m : machine) : string :=
  if code =? ERROR_FILE_NOT_FOUND then "The system cannot find the file specified."
  else if code =? ERROR_INVALID_HANDLE then "The handle is invalid."
  else if code =? ERROR_MORE_DATA then "More data is available."
  else "Unknown error.".

Definition MessageBox (lpText lpCaption : string) (uType : DWORD)
    (m : machine) : machine := m.

Definition os : OS := {|
  world := machine;
  sys_RegOpenKeyEx := RegOpenKeyEx;
  sys_RegEnumKeyEx := RegEnumKeyEx;
  sys_RegGetValue := RegGetValue;
  sys_GetFileAttributes := GetFileAttributes;
  sys_CreateProcess := CreateProcess;
  sys_WaitForSingleObject := WaitForSingleObject;
  sys_CloseHandle := CloseHandle;
  sys_GetLastError := GetLastError;
  sys_FormatMessage := FormatMessage;
  sys_MessageBox := MessageBox
|}.

(** A machine with the given native PythonCore key and files: a Unicode
    build, a child that can be spawned and exits, handles that close. *)
Definition healthy (core : option (list subkey)) (files : list string)
    : machine :=
  {| PythonCore := core;
     Wow6432Node_PythonCore := None;
     on_disk := files;
     unicode := true;
     can_spawn := true;
     child := ChildExits;
     closable := fun _ => true;
     last_error := 0 |}.

End Win.

(** ** Notions used to state the properties *)

(** *** Splitting a value on its delimiters *)

(** The fields between delimiters, empty ones included. *)
Fixpoint fields (delims s : string) : list string :=
  match s with
  | EmptyString => [EmptyString]
  | String c s' =>
      if is_delim delims c then EmptyString :: fields delims s'
      else
        match fields delims s' with
        | f :: fs => String c f :: fs
        | [] => [String c EmptyString]
        end
  end.

Definition nonempty (s : string) : bool :=
  match s with
  | EmptyString => false
  | String _ _ => true
  end.

(** The tokens of a value: its non-empty fields, in order. *)
Definition tokens (delims s : string) : list string :=
  filter nonempty (fields delims s).

(** The tokens the loop has still to see, given the token in hand and the
    context [_tcstok_s] saved. *)
Definition toks_of (token : option string) (tok_context : string)
    : list string :=
  match token with
  | None => []
  | Some tok => tok :: tokens ";" tok_context
  end.

(** *** Shapes of traces *)

(** A string that fits, with its terminator, in a buffer of [MAX_PATH]
    elements. *)
Definition fits (s : string) : Prop := tlen s + 1 <= MAX_PATH.

Definition read_rights : DWORD := Z.lor KEY_READ KEY_ENUMERATE_SUB_KEYS.

Definition box_style : DWORD := Z.lor MB_ICONERROR MB_OK.

(** What [error_code_exit] leaves in the trace. *)
Definition reported (lpszFunction : string) (code : DWORD) (t : list event)
    : Prop :=
  exists lpMsgBuf,
    t = [EvMessageBox (error_text lpszFunction code lpMsgBuf) "Error" box_style;
         EvExitProcess code].

(** What [msg_exit] leaves in the trace. *)
Definition announced (msg : string) : list event :=
  [EvMessageBox msg "ERROR" box_style; EvExitProcess 255].

(** The probe of one token of a PythonPath value. *)
Definition probe (tok : string) (attrs : DWORD) : event :=
  EvGetFileAttributes (tok ++ "\site-packages\winsync") attrs.

(** The runs of the token loop over the tokens that remain. *)
Inductive token_run (root : HKEY) (keyname : string) (path_size : DWORD)
    : list string -> result (option string) -> list event -> Prop :=
| tr_done :
    token_run root keyname path_size [] (Returned None) []
| tr_overlong tok rest :
    ~ fits (tok ++ "\site-packages\winsync") ->
    token_run root keyname path_size (tok :: rest) Crashed []
| tr_miss tok rest r t :
    fits (tok ++ "\site-packages\winsync") ->
    token_run root keyname path_size rest r t ->
    token_run root keyname path_size (tok :: rest) r
      (probe tok INVALID_FILE_ATTRIBUTES :: t)
| tr_hit_overlong tok rest attrs :
    fits (tok ++ "\site-packages\winsync") ->
    attrs <> INVALID_FILE_ATTRIBUTES ->
    ~ fits (keyname ++ "\InstallPath") ->
    token_run root keyname path_size (tok :: rest) Crashed [probe tok attrs]
| tr_hit_failed tok rest attrs r data cb te :
    fits (tok ++ "\site-packages\winsync") ->
    attrs <> INVALID_FILE_ATTRIBUTES ->
    fits (keyname ++ "\InstallPath") ->
    r <> ERROR_SUCCESS ->
    reported "RegGetValue (installpath)" r te ->
    token_run root keyname path_size (tok :: rest) (Exited r)
      (probe tok attrs
       :: EvRegGetValue root (keyname ++ "\InstallPath") RRF_RT_REG_SZ
            path_size r data cb
       :: te)
| tr_hit tok rest attrs data cb :
    fits (tok ++ "\site-packages\winsync") ->
    attrs <> INVALID_FILE_ATTRIBUTES ->
    fits (keyname ++ "\InstallPath") ->
    token_run root keyname path_size (tok :: rest) (Returned (Some data))
      [probe tok attrs;
       EvRegGetValue root (keyname ++ "\InstallPath") RRF_RT_REG_SZ
         path_size ERROR_SUCCESS data cb].

(** How the token loop ends the visit of a subkey: [None] when the
    enumeration goes on. *)
Definition after_tokens (r : result (option string)) : option (result string) :=
  match r with
  | Returned None => None
  | Returned (Some path) => Some (Returned path)
  | Exited c => Some (Exited c)
  | Crashed => Some Crashed
  | Unfinished => Some Unfinished
  end.

(** The runs of the enumeration from subkey number [i] on, starting with
    the [RegEnumKeyEx] call for [i]; [path_size] is the value of the size
    variable at that point. *)
Inductive scan_run (root : HKEY)
    : DWORD -> DWORD -> result string -> list event -> Prop :=
| sr_no_more i ps k cch :
    scan_run root i ps (Exited 255)
      (EvRegEnumKeyEx root i MAX_PATH ERROR_NO_MORE_ITEMS k cch
       :: announced "Could not find a WinSync install")
| sr_enum_failed i ps r k cch te :
    r <> ERROR_SUCCESS -> r <> ERROR_NO_MORE_ITEMS ->
    reported "RegEnumKeyEx" r te ->
    scan_run root i ps (Exited r)
      (EvRegEnumKeyEx root i MAX_PATH r k cch :: te)
| sr_unfinished i ps k cch :
    scan_run root i ps Unfinished
      [EvRegEnumKeyEx root i MAX_PATH ERROR_SUCCESS k cch]
| sr_overlong i ps k cch :
    ~ fits (k ++ "\PythonPath") ->
    scan_run root i ps Crashed
      [EvRegEnumKeyEx root i MAX_PATH ERROR_SUCCESS k cch]
| sr_read_failed i ps k cch r data cb te :
    fits (k ++ "\PythonPath") ->
    r <> ERROR_SUCCESS -> r <> 2 ->
    reported "RegGetValue" r te ->
    scan_run root i ps (Exited r)
      (EvRegEnumKeyEx root i MAX_PATH ERROR_SUCCESS k cch
       :: EvRegGetValue root (k ++ "\PythonPath") RRF_RT_REG_SZ ps r data cb
       :: te)
| sr_skipped i ps k cch data cb res t :
    fits (k ++ "\PythonPath") ->
    scan_run root (DWORD_incr i) cb res t ->
    scan_run root i ps res
      (EvRegEnumKeyEx root i MAX_PATH ERROR_SUCCESS k cch
       :: EvRegGetValue root (k ++ "\PythonPath") RRF_RT_REG_SZ ps 2 data cb
       :: t)
| sr_probed i ps k cch paths cb tt res t :
    fits (k ++ "\PythonPath") ->
    token_run root k cb (tokens ";" paths) (Returned None) tt ->
    scan_run root (DWORD_incr i) cb res t ->
    scan_run root i ps res
      (EvRegEnumKeyEx root i MAX_PATH ERROR_SUCCESS k cch
       :: EvRegGetValue root (k ++ "\PythonPath") RRF_RT_REG_SZ ps
            ERROR_SUCCESS paths cb
       :: tt ++ t)
| sr_stopped i ps k cch paths cb tt r res :
    fits (k ++ "\PythonPath") ->
    token_run root k cb (tokens ";" paths) r tt ->
    after_tokens r = Some res ->
    scan_run root i ps res
      (EvRegEnumKeyEx root i MAX_PATH ERROR_SUCCESS k cch
       :: EvRegGetValue root (k ++ "\PythonPath") RRF_RT_REG_SZ ps
            ERROR_SUCCESS paths cb
       :: tt).

(** The runs of [find_winsync]: the opening of the key, then the scan. *)
Inductive find_run : result string -> list event -> Prop :=
| fr_native root res t :
    scan_run root 0 MAX_PATH res t ->
    find_run res
      (EvRegOpenKeyEx HKEY_LOCAL_MACHINE (keys 0) 0 read_rights
         ERROR_SUCCESS root :: t)
| fr_wow64 r0 h0 root res t :
    r0 <> ERROR_SUCCESS ->
    scan_run root 0 MAX_PATH res t ->
    find_run res
      (EvRegOpenKeyEx HKEY_LOCAL_MACHINE (keys 0) 0 read_rights r0 h0
       :: EvRegOpenKeyEx HKEY_LOCAL_MACHINE (keys 1) 0 read_rights
            ERROR_SUCCESS root
       :: t)
| fr_no_key r0 h0 r1 h1 te :
    r0 <> ERROR_SUCCESS -> r1 <> ERROR_SUCCESS ->
    reported "RegOpenKeyEx" r1 te ->
    find_run (Exited r1)
      (EvRegOpenKeyEx HKEY_LOCAL_MACHINE (keys 0) 0 read_rights r0 h0
       :: EvRegOpenKeyEx HKEY_LOCAL_MACHINE (keys 1) 0 read_rights r1 h1
       :: te).

(** The command line [_tWinMain] builds in [appname]. *)
Definition command_line (path : string) : string :=
  ((path ++ "python.exe") ++ " -m winsync.run")%string.

Definition spawn (path : string) (ok : bool) (pi : PROCESS_INFORMATION)
    : event :=
  EvCreateProcess (command_line path) true
    (Z.lor CREATE_NEW_CONSOLE CREATE_PRESERVE_CODE_AUTHZ_LEVEL) path
    {| dwFlags := STARTF_USESHOWWINDOW; wShowWindow := SW_SHOW |} ok pi.

(** A wait result on which [_tWinMain] goes on to close the handles. *)
Definition wait_passes (w : DWORD) : Prop :=
  w <> WAIT_ABANDONED /\ w <> WAIT_TIMEOUT /\ w <> WAIT_FAILED.

(** The four values [WaitForSingleObject] is documented to return. *)
Definition wait_documented (w : DWORD) : Prop :=
  w = WAIT_OBJECT_0 \/ w = WAIT_ABANDONED \/ w = WAIT_TIMEOUT \/ w = WAIT_FAILED.

(** The runs of [_tWinMain] after [find_winsync] has returned [path]. *)
Inductive launch_run (path : string) : result unit -> list event -> Prop :=
| lr_overlong :
    ~ fits (command_line path) ->
    launch_run path Crashed []
| lr_spawn_failed pi e te :
    fits (command_line path) ->
    reported "CreateProcess" e te ->
    launch_run path (Exited e)
      (spawn path false pi :: EvGetLastError e :: te)
| lr_abandoned pi :
    fits (command_line path) ->
    launch_run path (Exited 255)
      (spawn path true pi
       :: EvWaitForSingleObject (hProcess pi) INFINITE WAIT_ABANDONED
       :: announced "Wait abandoned")
| lr_timeout pi :
    fits (command_line path) ->
    launch_run path (Exited 255)
      (spawn path true pi
       :: EvWaitForSingleObject (hProcess pi) INFINITE WAIT_TIMEOUT
       :: announced "Timout reached, should have waited indefinately.")
| lr_wait_failed pi e te :
    fits (command_line path) ->
    reported "WaitForSingleObject" e te ->
    launch_run path (Exited e)
      (spawn path true pi
       :: EvWaitForSingleObject (hProcess pi) INFINITE WAIT_FAILED
       :: EvGetLastError e :: te)
| lr_close_process_failed pi w e te :
    fits (command_line path) ->
    wait_passes w ->
    reported "CloseHandle (process)" e te ->
    launch_run path (Exited e)
      (spawn path true pi
       :: EvWaitForSingleObject (hProcess pi) INFINITE w
       :: EvCloseHandle (hProcess pi) false
       :: EvGetLastError e :: te)
| lr_close_thread_failed pi w e te :
    fits (command_line path) ->
    wait_passes w ->
    reported "CloseHandle (thread)" e te ->
    launch_run path (Exited e)
      (spawn path true pi
       :: EvWaitForSingleObject (hProcess pi) INFINITE w
       :: EvCloseHandle (hProcess pi) true
       :: EvCloseHandle (hThread pi) false
       :: EvGetLastError e :: te)
| lr_done pi w :
    fits (command_line path) ->
    wait_passes w ->
    launch_run path (Returned tt)
      [spawn path true pi;
       EvWaitForSingleObject (hProcess pi) INFINITE w;
       EvCloseHandle (hProcess pi) true;
       EvCloseHandle (hThread pi) true].

(** A result that is not a return, at another type. *)
Definition stopped {A B : Type} (r : result A) : option (result B) :=
  match r with
  | Returned _ => None
  | Exited c => Some (Exited c)
  | Crashed => Some Crashed
  | Unfinished => Some Unfinished
  end.

(** The runs of [_tWinMain]. *)
Inductive main_run : result unit -> list event -> Prop :=
| mr_stopped r r' t :
    find_run r t ->
    stopped r = Some r' ->
    main_run r' t
| mr_launched path t r t' :
    find_run (Returned path) t ->
    launch_run path r t' ->
    main_run r (t ++ t').

(** Projections of a run. *)
Definition outcome {W A : Type} (x : result A * W * list event) : result A :=
  fst (fst x).

Definition trace {W A : Type} (x : result A * W * list event) : list event :=
  snd x.

Definition final {W A : Type} (x : result A * W * list event) : W :=
  snd (fst x).

(** *** The trace against the operating system *)

(** [answers os w e w']: from the world [w], the call recorded in [e] got
    the answer recorded in [e] and left the world [w']. *)
Definition answers (os : OS) (w : world os) (e : event) (w' : world os)
    : Prop :=
  match e with
  | EvRegOpenKeyEx h s o sam r h' =>
      sys_RegOpenKeyEx os h s o sam w = (r, h', w')
  | EvRegEnumKeyEx h i cch r name cch' =>
      sys_RegEnumKeyEx os h i cch w = (r, name, cch', w')
  | EvRegGetValue h s fl cb r data cb' =>
      sys_RegGetValue os h s fl cb w = (r, data, cb', w')
  | EvGetFileAttributes p r =>
      sys_GetFileAttributes os p w = (r, w')
  | EvCreateProcess c b fl d si ok pi =>
      sys_CreateProcess os c b fl d si w = (ok, pi, w')
  | EvWaitForSingleObject h ms r =>
      sys_WaitForSingleObject os h ms w = (r, w')
  | EvCloseHandle h ok =>
      sys_CloseHandle os h w = (ok, w')
  | EvGetLastError r =>
      sys_GetLastError os w = (r, w')
  | EvMessageBox text caption style =>
      sys_MessageBox os text caption style w = w'
  | EvExitProcess _ => w = w'
  end.

(** A trace that leads from one world to another, call by call. *)
Inductive chain (os : OS) : world os -> list event -> world os -> Prop :=
| chain_nil w : chain os w [] w
| chain_cons w e w1 t w' :
    answers os w e w1 -> chain os w1 t w' -> chain os w (e :: t) w'.

(** [m'] does what [m] does whenever [m] comes to an end. *)
Definition extends {os : OS} {A : Type} (m m' : M os A) : Prop :=
  forall w r w' t, m w = (r, w', t) -> r <> Unfinished -> m' w = (r, w', t).

(** A computation whose trace is such a chain, whatever the world it
    starts from. *)
Definition chained {os : OS} {A : Type} (m : M os A) : Prop :=
  forall w, chain os w (trace (m w)) (final (m w)).

(** *** Predicates on entries of the trace *)

(** An entry that touches no key but [root]: it opens none, and when it
    enumerates or reads, it does so under [root]. *)
Definition on_key (root : HKEY) (e : event) : Prop :=
  match e with
  | EvRegOpenKeyEx _ _ _ _ _ _ => False
  | EvRegEnumKeyEx h _ _ _ _ _ => h = root
  | EvRegGetValue h _ _ _ _ _ _ => h = root
  | _ => True
  end.

(** A call that cannot change the registry or the file system: opening a
    key counts only with the read rights and no option set. *)
Definition read_only (e : event) : Prop :=
  match e with
  | EvRegOpenKeyEx _ _ options sam _ _ =>
      options = 0 /\ sam = Z.lor KEY_READ KEY_ENUMERATE_SUB_KEYS
  | _ => True
  end.

(** A call that concerns the child process. *)
Definition process_call (e : event) : Prop :=
  match e with
  | EvCreateProcess _ _ _ _ _ _ _ => True
  | EvWaitForSingleObject _ _ _ => True
  | EvCloseHandle _ _ => True
  | _ => False
  end.

Definition is_CloseHandle (e : event) : Prop :=
  match e with
  | EvCloseHandle _ _ => True
  | _ => False
  end.

(** A [CreateProcess] entry whose command line and working directory are
    those built from [path]. *)
Definition spawns_from (path : string) (e : event) : Prop :=
  match e with
  | EvCreateProcess c _ _ d _ _ _ =>
      c = (path ++ "python.exe" ++ " -m winsync.run")%string /\ d = path
  | _ => True
  end.

Definition is_CreateProcess (e : event) : Prop :=
  match e with
  | EvCreateProcess _ _ _ _ _ _ _ => True
  | _ => False
  end.

(** The end of a run that closes the handles of the child: both closed, or
    the failure of one of the two [CloseHandle] calls reported. *)
Definition closes (pi : PROCESS_INFORMATION) (r : result unit)
    (tc : list event) : Prop :=
  (tc = [EvCloseHandle (hProcess pi) true; EvCloseHandle (hThread pi) true]
   /\ r = Returned tt) \/
  (exists e te,
     reported "CloseHandle (process)" e te /\
     tc = EvCloseHandle (hProcess pi) false :: EvGetLastError e :: te /\
     r = Exited e) \/
  (exists e te,
     reported "CloseHandle (thread)" e te /\
     tc = EvCloseHandle (hProcess pi) true
          :: EvCloseHandle (hThread pi) false :: EvGetLastError e :: te /\
     r = Exited e).

(** The end of a run whose wait did not return normally. *)
Definition wait_error (wr : DWORD) (r : result unit) (tc : list event)
    : Prop :=
  (wr = WAIT_ABANDONED /\ tc = announced "Wait abandoned" /\ r = Exited 255) \/
  (wr = WAIT_TIMEOUT /\
   tc = announced "Timout reached, should have waited indefinately." /\
   r = Exited 255) \/
  (wr = WAIT_FAILED /\
   exists e te,
     reported "WaitForSingleObject" e te /\
     tc = EvGetLastError e :: te /\ r = Exited e).

(** A wait entry whose answer is a documented one. *)
Definition wait_entry_documented (e : event) : Prop :=
  match e with
  | EvWaitForSingleObject _ _ r => wait_documented r
  | _ => True
  end.

(** *** Why the process exited *)

(** The error code of a registry call, which is its return value, when the
    program treats the call as failed: any value but ERROR_SUCCESS, and for
    an enumeration any value but ERROR_SUCCESS and ERROR_NO_MORE_ITEMS. *)
Definition error_code_of (e : event) : option DWORD :=
  match e with
  | EvRegOpenKeyEx _ _ _ _ r _ =>
      if r =? ERROR_SUCCESS then None else Some r
  | EvRegEnumKeyEx _ _ _ r _ _ =>
      if (r =? ERROR_SUCCESS) || (r =? ERROR_NO_MORE_ITEMS) then None
      else Some r
  | EvRegGetValue _ _ _ _ r _ _ =>
      if r =? ERROR_SUCCESS then None else Some r
  | _ => None
  end.

(** A call that signals its failure by its return value and leaves the
    error code to [GetLastError]. *)
Definition failed_call (e : event) : Prop :=
  match e with
  | EvCreateProcess _ _ _ _ _ ok _ => ok = false
  | EvWaitForSingleObject _ _ r => r = WAIT_FAILED
  | EvCloseHandle _ ok => ok = false
  | _ => False
  end.

(** The last entries of a trace that ends in an exit, with the exit
    status: a failed call followed by the report of its error code, or one
    of the three situations that are announced by a message of their own. *)
Inductive exit_cause : list event -> DWORD -> Prop :=
| ec_status e f code te :
    error_code_of e = Some code ->
    reported f code te ->
    exit_cause (e :: te) code
| ec_last_error e f code te :
    failed_call e ->
    reported f code te ->
    exit_cause (e :: EvGetLastError code :: te) code
| ec_not_found root i cch k cch' :
    exit_cause
      (EvRegEnumKeyEx root i cch ERROR_NO_MORE_ITEMS k cch'
       :: announced "Could not find a WinSync install") 255
| ec_abandoned h ms :
    exit_cause
      (EvWaitForSingleObject h ms WAIT_ABANDONED
       :: announced "Wait abandoned") 255
| ec_timeout h ms :
    exit_cause
      (EvWaitForSingleObject h ms WAIT_TIMEOUT
       :: announced "Timout reached, should have waited indefinately.") 255.

Definition exit_explained (t : list event) (code : DWORD) : Prop :=
  exists pre tail, t = pre ++ tail /\ exit_cause tail code.

(** *** Failed calls *)

(** A call that failed, as its return value tells. *)
Definition call_failed (e : event) : Prop :=
  match e with
  | EvRegOpenKeyEx _ _ _ _ r _ => r <> ERROR_SUCCESS
  | EvRegEnumKeyEx _ _ _ r _ _ => r <> ERROR_SUCCESS
  | EvRegGetValue _ _ _ _ r _ _ => r <> ERROR_SUCCESS
  | EvGetFileAttributes _ r => r = INVALID_FILE_ATTRIBUTES
  | EvCreateProcess _ _ _ _ _ ok _ => ok = false
  | EvWaitForSingleObject _ _ r => r = WAIT_FAILED
  | EvCloseHandle _ ok => ok = false
  | _ => False
  end.

(** What follows a failure that ends the process: the message box and the
    exit, after [GetLastError] when the code is fetched by it. *)
Definition ends_in_report (post : list event) (code : DWORD) : Prop :=
  exists text caption,
    post = [EvMessageBox text caption box_style; EvExitProcess code] \/
    post = [EvGetLastError code;
            EvMessageBox text caption box_style; EvExitProcess code].

(** Every failed call is followed by the report and the exit, and by
    nothing else. *)
Definition every_failure_is_terminal {A : Type} (r : result A)
    (t : list event) : Prop :=
  forall pre e post,
    t = pre ++ e :: post -> call_failed e ->
    exists code, r = Exited code /\ ends_in_report post code.

Fixpoint ends_with (suffix s : string) : bool :=
  String.eqb s suffix ||
  match s with
  | EmptyString => false
  | String _ s' => ends_with suffix s'
  end.

(** The failures after which the program goes on: the opening of the first
    of the two keys, the read of a PythonPath value answering 2, and a probe
    of a path that is not there. *)
Definition tolerated (e : event) : Prop :=
  match e with
  | EvRegOpenKeyEx _ s _ _ _ _ => s = "SOFTWARE\Python\PythonCore"
  | EvRegGetValue _ s _ _ r _ _ => r = 2 /\ ends_with "\PythonPath" s = true
  | EvGetFileAttributes _ _ => True
  | _ => False
  end.

Definition exit_code {A : Type} (r : result A) : option DWORD :=
  match r with
  | Exited c => Some c
  | _ => None
  end.

(** The same requirement, entry by entry, on the failures that are not
    tolerated; [oc] is the exit status, if the process exited. *)
Fixpoint handled (oc : option DWORD) (t : list event) : Prop :=
  match t with
  | [] => True
  | e :: post =>
      (call_failed e -> ~ tolerated e ->
       exists code, oc = Some code /\ ends_in_report post code) /\
      handled oc post
  end.

Definition harmless (e : event) : Prop :=
  call_failed e -> ~ tolerated e -> False.

(** *** The linear scan *)

(** The probe of a token below which winsync is not found. *)
Definition probe_missed (tok : string) : event :=
  probe tok INVALID_FILE_ATTRIBUTES.

(** The calls by which the key got opened: the first key alone, or the
    second after the first failed. *)
Definition opened (root : HKEY) (t : list event) : Prop :=
  t = [EvRegOpenKeyEx HKEY_LOCAL_MACHINE (keys 0) 0 read_rights
         ERROR_SUCCESS root] \/
  exists r0 h0,
    r0 <> ERROR_SUCCESS /\
    t = [EvRegOpenKeyEx HKEY_LOCAL_MACHINE (keys 0) 0 read_rights r0 h0;
         EvRegOpenKeyEx HKEY_LOCAL_MACHINE (keys 1) 0 read_rights
           ERROR_SUCCESS root].

(** [found_by_scan root path i t]: [t] is a scan of the subkeys of [root]
    from number [i] on, in the order of their numbers, that ends by finding
    [path].  A subkey whose PythonPath read answers 2 is passed over; one
    whose value is read has the tokens of the value probed in order, all in
    vain; in the last subkey visited the probes stop at the first token
    below which site-packages\winsync exists, and [path] is the value then
    read from InstallPath under that subkey, which ends the scan. *)
Inductive found_by_scan (root : HKEY) (path : string)
    : DWORD -> list event -> Prop :=
| fbs_here i k cch ps paths cb before tok after attrs cb' :
    tokens ";" paths = before ++ tok :: after ->
    attrs <> INVALID_FILE_ATTRIBUTES ->
    found_by_scan root path i
      (EvRegEnumKeyEx root i MAX_PATH ERROR_SUCCESS k cch
       :: EvRegGetValue root (k ++ "\PythonPath") RRF_RT_REG_SZ ps
            ERROR_SUCCESS paths cb
       :: map probe_missed before
       ++ [probe tok attrs;
           EvRegGetValue root (k ++ "\InstallPath") RRF_RT_REG_SZ cb
             ERROR_SUCCESS path cb'])
| fbs_skipped i k cch ps data cb t :
    found_by_scan root path (DWORD_incr i) t ->
    found_by_scan root path i
      (EvRegEnumKeyEx root i MAX_PATH ERROR_SUCCESS k cch
       :: EvRegGetValue root (k ++ "\PythonPath") RRF_RT_REG_SZ ps 2 data cb
       :: t)
| fbs_missed i k cch ps paths cb t :
    found_by_scan root path (DWORD_incr i) t ->
    found_by_scan root path i
      (EvRegEnumKeyEx root i MAX_PATH ERROR_SUCCESS k cch
       :: EvRegGetValue root (k ++ "\PythonPath") RRF_RT_REG_SZ ps
            ERROR_SUCCESS paths cb
       :: map probe_missed (tokens ";" paths) ++ t).

(** *** Buffers *)

(** An answer of the operating system that stays within the capacity it
    was offered: a subkey name with its terminator within [cchName]
    characters; a value with its terminator within [cbData] bytes, a
    character taking at least one byte; and a size written back that does
    not exceed the size offered, both when the value was read and when the
    call answered 2. *)
Definition capacity_respected (e : event) : Prop :=
  match e with
  | EvRegEnumKeyEx _ _ cch r name _ =>
      r = ERROR_SUCCESS -> tlen name + 1 <= cch
  | EvRegGetValue _ _ _ cb r data cb' =>
      (r = ERROR_SUCCESS -> tlen data + 1 <= cb /\ cb' <= cb) /\
      (r = 2 -> cb' <= cb)
  | _ => True
  end.

(** A call all of whose strings fit in buffers of [MAX_PATH] elements and
    whose capacity argument does not exceed [MAX_PATH]. *)
Definition within_buffers (e : event) : Prop :=
  match e with
  | EvRegEnumKeyEx _ _ cch r name _ =>
      cch = MAX_PATH /\ (r = ERROR_SUCCESS -> fits name)
  | EvRegGetValue _ s _ cb r data _ =>
      fits s /\ cb <= MAX_PATH /\ (r = ERROR_SUCCESS -> fits data)
  | EvGetFileAttributes p _ => fits p
  | EvCreateProcess c _ _ d _ _ _ => fits c /\ fits d
  | _ => True
  end.

(** The size variable as the reads hand it on: each [RegGetValue] is
    offered [ps], and the next one what this one wrote back. *)
Fixpoint sizes_threaded (ps : DWORD) (t : list event) : Prop :=
  match t with
  | [] => True
  | EvRegGetValue _ _ _ cb _ _ cb' :: t' => cb = ps /\ sizes_threaded cb' t'
  | _ :: t' => sizes_threaded ps t'
  end.

Definition is_RegGetValue (e : event) : Prop :=
  match e with
  | EvRegGetValue _ _ _ _ _ _ _ => True
  | _ => False
  end.

(** The entry [last] gives for an empty trace. *)
Definition no_entry : event := EvExitProcess 0.

(** *** The ways [find_winsync] ends *)

(** [find_winsync] returned [path], found by the scan and read from the
    InstallPath subkey. *)
Definition returned_install_path {W : Type}
    (found : result string * W * list event) (path : string) : Prop :=
  outcome found = Returned path /\
  exists opening root scan,
    trace found = opening ++ scan /\
    opened root opening /\
    found_by_scan root path 0 scan.

(** The process ended in [msg_exit] or [error_code_exit]. *)
Definition exited_with_report {W : Type}
    (found : result string * W * list event) : Prop :=
  exists code,
    outcome found = Exited code /\ exit_explained (trace found) code.

(** A subkey name the enumeration gave in the trace. *)
Definition name_seen (t : list event) (s : string) : Prop :=
  exists h i cch cch', In (EvRegEnumKeyEx h i cch ERROR_SUCCESS s cch') t.

(** A token of a value read in the trace. *)
Definition token_seen (t : list event) (s : string) : Prop :=
  exists h k fl cb data cb',
    In (EvRegGetValue h k fl cb ERROR_SUCCESS data cb') t /\
    In s (tokens ";" data).

(** The trace holds a subkey name that, with \PythonPath or \InstallPath,
    or a token that, with \site-packages\winsync, does not fit in
    [MAX_PATH] elements. *)
Definition overlong_in (t : list event) : Prop :=
  exists s,
    (name_seen t s /\
     (~ fits (s ++ "\PythonPath") \/ ~ fits (s ++ "\InstallPath"))) \/
    (token_seen t s /\ ~ fits (s ++ "\site-packages\winsync")).

(** The process ended in the invalid-parameter handler, on such a
    string. *)
Definition rejected_overlong {W : Type}
    (found : result string * W * list event) : Prop :=
  outcome found = Crashed /\ overlong_in (trace found).

(** The enumeration answers no subkey at the numbers from [n] on. *)
Definition enumeration_ends_by (n : Z) (e : event) : Prop :=
  match e with
  | EvRegEnumKeyEx _ i _ r _ _ => n <= i -> r <> ERROR_SUCCESS
  | _ => True
  end.

(** ** Notions for the properties of every run *)

(** *** The error text in its buffer *)

(** [StringCchPrintf(dest, cchDest, format, ...)] writes the formatted
    text, cut to [cchDest - 1] characters when it is longer, and a
    terminator. *)
Definition StringCchPrintf (cchDest : Z) (text : string) : string :=
  substring 0 (Z.to_nat (cchDest - 1)) text.

(** Lines 198-199: the number of characters [LocalAlloc] is asked for. *)
Definition display_size (lpMsgBuf lpszFunction : string) : Z :=
  tlen lpMsgBuf + tlen lpszFunction + 40.

(** *** Message boxes *)

(** A call that shows nothing and does not end the process. *)
Definition silent (e : event) : Prop :=
  match e with
  | EvMessageBox _ _ _ => False
  | EvExitProcess _ => False
  | _ => True
  end.

(** A run that exits shows one message box, with one of the two captions
    of the source, and exits right after it; any other run shows none. *)
Definition one_dialog {A : Type} (r : result A) (t : list event) : Prop :=
  match r with
  | Exited code =>
      exists pre text caption,
        t = pre ++ [EvMessageBox text caption box_style; EvExitProcess code] /\
        Forall silent pre /\
        (caption = "Error" \/ caption = "ERROR")
  | _ => Forall silent t
  end.

(** *** The subkey being visited *)

(** The key handle and the subkey name of the last enumeration of a trace;
    [cur] when there is none. *)
Fixpoint visiting (cur : option (HKEY * string)) (t : list event)
    : option (HKEY * string) :=
  match t with
  | [] => cur
  | EvRegEnumKeyEx h _ _ _ name _ :: t' => visiting (Some (h, name)) t'
  | _ :: t' => visiting cur t'
  end.

(** What follows a probe that found winsync while the subkey [k] of [root]
    is visited: the bounded operations reject the name of the InstallPath
    subkey; or the value is read from it, and either the function returns
    it or the failure of the read is reported. *)
Definition install_path_read (res : result string) (root : HKEY)
    (k : string) (post : list event) : Prop :=
  (~ fits (k ++ "\InstallPath") /\ post = [] /\ res = Crashed) \/
  (exists cb r data cb' rest,
     post = EvRegGetValue root (k ++ "\InstallPath") RRF_RT_REG_SZ cb
              r data cb' :: rest /\
     ((r = ERROR_SUCCESS /\ rest = [] /\ res = Returned data) \/
      (r <> ERROR_SUCCESS /\
       reported "RegGetValue (installpath)" r rest /\ res = Exited r))).

(** The same, for each probe of a trace; [cur] is the subkey visited when
    the trace begins. *)
Fixpoint hits_end_scan (res : result string) (cur : option (HKEY * string))
    (t : list event) : Prop :=
  match t with
  | [] => True
  | EvGetFileAttributes _ attrs :: post =>
      (attrs <> INVALID_FILE_ATTRIBUTES ->
       exists root k, cur = Some (root, k) /\ install_path_read res root k post) /\
      hits_end_scan res cur post
  | EvRegEnumKeyEx h _ _ _ name _ :: post =>
      hits_end_scan res (Some (h, name)) post
  | _ :: post => hits_end_scan res cur post
  end.

(** *** The entries of a PythonPath value *)

Fixpoint no_delim (delims s : string) : Prop :=
  match s with
  | EmptyString => True
  | String c s' => is_delim delims c = false /\ no_delim delims s'
  end.

(** [value] begins with a delimiter, or is empty. *)
Definition delim_or_end (delims value : string) : Prop :=
  match value with
  | EmptyString => True
  | String c _ => is_delim delims c = true
  end.

(** [value] ends with a delimiter, or is empty. *)
Definition delim_or_start (delims value : string) : Prop :=
  value = EmptyString \/
  exists a c, value = (a ++ String c EmptyString)%string /\ is_delim delims c = true.

(** [entry] is one of the entries of [value]: a non-empty stretch of it
    without a delimiter, that runs from the start of the value or a
    delimiter to a delimiter or the end of the value. *)
Definition entry_of (delims value entry : string) : Prop :=
  entry <> EmptyString /\
  no_delim delims entry /\
  exists before after,
    value = (before ++ entry ++ after)%string /\
    delim_or_start delims before /\
    delim_or_end delims after.

(** The value last read in a trace; [cur] when none was. *)
Fixpoint value_in_hand (cur : option string) (t : list event)
    : option string :=
  match t with
  | [] => cur
  | EvRegGetValue _ _ _ _ _ data _ :: t' => value_in_hand (Some data) t'
  | _ :: t' => value_in_hand cur t'
  end.

(** Each probe of a trace is for a token of the value last read; [cur] is
    the value in hand when the trace begins. *)
Fixpoint probes_tokens (cur : option string) (t : list event) : Prop :=
  match t with
  | [] => True
  | EvGetFileAttributes p _ :: post =>
      (exists value tok,
         cur = Some value /\ In tok (tokens ";" value) /\
         p = (tok ++ "\site-packages\winsync")%string) /\
      probes_tokens cur post
  | EvRegGetValue _ _ _ _ _ data _ :: post => probes_tokens (Some data) post
  | _ :: post => probes_tokens cur post
  end.

(** *** The search that finds nothing *)



(** *** The sizes of the values read *)

(** A read of a value as [RegGetValue] is documented, for characters of
    [sz] bytes: it succeeds only when the value and its terminator take no
    more than the [cbData] bytes offered, and then writes back the bytes
    they take; when it answers 2 it writes back no more than it was
    offered. *)
Definition read_as_documented (sz : Z) (e : event) : Prop :=
  match e with
  | EvRegGetValue _ _ _ cb r data cb' =>
      (r = ERROR_SUCCESS -> cb' = sz * (tlen data + 1) /\ cb' <= cb) /\
      (r = 2 -> cb' <= cb)
  | _ => True
  end.

(** The values read with success in a trace, in order. *)
Fixpoint values_read (t : list event) : list string :=
  match t with
  | [] => []
  | EvRegGetValue _ _ _ _ r data _ :: t' =>
      if r =? ERROR_SUCCESS then data :: values_read t' else values_read t'
  | _ :: t' => values_read t'
  end.

(** ** Machines for the concrete runs *)

Module Sample.

Import Win.

Definition python27 : subkey :=
  {| sk_name := "2.7";
     sk_PythonPath :=
       Some "C:\Python27\Lib;C:\Python27\DLLs;C:\Python27\Lib\lib-tk";
     sk_InstallPath := Some "C:\Python27\" |}.

(** An uninstalled interpreter: the subkey is left without PythonPath. *)
Definition python26_removed : subkey :=
  {| sk_name := "2.6"; sk_PythonPath := None; sk_InstallPath := None |}.

(** One interpreter, with winsync in its first library directory. *)
Definition typical : machine :=
  healthy (Some [python27]) ["C:\Python27\Lib\site-packages\winsync"].


(** A 64-bit machine with 32-bit interpreters only: the native key is
    absent; one subkey is a leftover, the other has winsync in the second
    directory of its path. *)
Definition wow64_only : machine :=
  {| PythonCore := None;
     Wow6432Node_PythonCore := Some [python26_removed; python27];
     on_disk := ["C:\Python27\DLLs\site-packages\winsync"];
     unicode := true;
     can_spawn := true;
     child := ChildExits;
     closable := fun _ => true;
     last_error := 0 |}.

(** Two interpreters, the first in a directory with a shorter name;
    winsync is installed for the second. *)
Definition python26 : subkey :=
  {| sk_name := "2.6";
     sk_PythonPath := Some "C:\Py26\Lib;C:\Py26\DLLs";
     sk_InstallPath := Some "C:\Py26\" |}.

Definition two_interpreters : machine :=
  healthy (Some [python26; python27])
    ["C:\Python27\Lib\site-packages\winsync"].

(** One interpreter whose PythonPath value is shorter than its InstallPath
    value, with winsync in the library directory. *)
Definition python34 : subkey :=
  {| sk_name := "3.4";
     sk_PythonPath := Some "C:\P34\Lib";
     sk_InstallPath := Some "C:\Python34\" |}.

Definition short_python_path : machine :=
  healthy (Some [python34]) ["C:\P34\Lib\site-packages\winsync"].

(** An interpreter with winsync but no InstallPath value. *)
Definition python27_no_install : subkey :=
  {| sk_name := "2.7";
     sk_PythonPath := Some "C:\Python27\Lib";
     sk_InstallPath := None |}.

Definition no_install_path : machine :=
  healthy (Some [python27_no_install])
    ["C:\Python27\Lib\site-packages\winsync"].

Fixpoint letters (n : nat) : string :=
  match n with
  | O => EmptyString
  | S n' => String "a" (letters n')
  end.

(** A subkey of PythonCore whose name has 250 characters (a key name may
    have up to 255). *)
Definition long_name : subkey :=
  {| sk_name := letters 250;
     sk_PythonPath := Some "C:\Python27\Lib";
     sk_InstallPath := Some "C:\Python27\" |}.

Definition long_subkey_name : machine :=
  healthy (Some [long_name]) ["C:\Python27\Lib\site-packages\winsync"].

(** The launcher started with no argument, its window shown normally. *)
Definition no_arguments : string := EmptyString.
Definition SW_SHOWNORMAL : Z := 1.

Definition launch (fuel : nat) (m : machine) :=
  _tWinMain Win.os fuel no_arguments SW_SHOWNORMAL m.

Definition locate (fuel : nat) (m : machine) := find_winsync Win.os fuel m.

(** What a machine keeps of the registry and of the file system. *)
Definition registry_and_files (m : machine)
    : option (list subkey) * option (list subkey) * list string :=
  (PythonCore m, Wow6432Node_PythonCore m, on_disk m).

End Sample.

(** * Properties *)

(** ** Strings and tokens *)

Lemma length_append (a b : string) :
  String.length (a ++ b) = (String.length a + String.length b)%nat.
Proof.
  induction a as [|c a IH]; simpl; [reflexivity | now rewrite IH].
Qed.

Lemma append_assoc (a b c : string) :
  ((a ++ b) ++ c)%string = (a ++ (b ++ c))%string.
Proof.
  induction a as [|x a IH]; simpl; [reflexivity | now rewrite IH].
Qed.

Lemma tlen_append (a b : string) : tlen (a ++ b) = tlen a + tlen b.
Proof. unfold tlen. rewrite length_append. lia. Qed.

Lemma tlen_nonneg (s : string) : 0 <= tlen s.
Proof. unfold tlen. lia. Qed.

Lemma fields_scan_token (d s : string) :
  exists rest,
    fields d s = fst (scan_token d s) :: rest /\
    filter nonempty rest = tokens d (snd (scan_token d s)).
Proof.
  induction s as [|c s IH]; simpl.
  - exists []. split; reflexivity.
  - destruct (is_delim d c) eqn:Hc; simpl.
    + exists (fields d s). split; reflexivity.
    + destruct IH as (rest & Hf & Hr). rewrite Hf.
      destruct (scan_token d s) as [tok ctx]. simpl in *.
      exists rest. split; [reflexivity | assumption].
Qed.

(** The list of tokens is what repeated calls of [_tcstok_s] yield. *)
Lemma tokens_tcstok (d s : string) :
  tokens d s =
  match tcstok_s d s with
  | (None, _) => []
  | (Some tok, ctx) => tok :: tokens d ctx
  end.
Proof.
  unfold tcstok_s. induction s as [|c s IH]; simpl.
  - reflexivity.
  - destruct (is_delim d c) eqn:Hc.
    + unfold tokens in *. simpl. rewrite Hc. simpl. exact IH.
    + destruct (fields_scan_token d (String c s)) as (rest & Hf & Hr).
      unfold tokens at 1. rewrite Hf. simpl in Hr |- *.
      rewrite Hc in Hr |- *.
      destruct (scan_token d s) as [tok ctx]. simpl in *.
      now rewrite Hr.
Qed.

Lemma skip_delims_length (d s : string) :
  (String.length (skip_delims d s) <= String.length s)%nat.
Proof.
  induction s as [|c s IH]; simpl; [lia|].
  destruct (is_delim d c); simpl; lia.
Qed.

Lemma scan_token_length (d s : string) :
  (String.length (snd (scan_token d s)) <= String.length s)%nat.
Proof.
  induction s as [|c s IH]; simpl; [lia|].
  destruct (is_delim d c); simpl; [lia|].
  destruct (scan_token d s); simpl in *. lia.
Qed.

Lemma tcstok_shorter (d s tok ctx : string) :
  tcstok_s d s = (Some tok, ctx) ->
  (S (String.length ctx) <= String.length s)%nat.
Proof.
  unfold tcstok_s. intros H.
  pose proof (skip_delims_length d s) as Hs.
  destruct (skip_delims d s) as [|c s'] eqn:Hk; [discriminate|].
  simpl in H. destruct (is_delim d c).
  - inversion H; subst. simpl in Hs. lia.
  - pose proof (scan_token_length d s') as Ht.
    destruct (scan_token d s') as [tok' ctx']. inversion H; subst.
    simpl in *. lia.
Qed.

Lemma tokens_length (d s : string) :
  (List.length (tokens d s) <= String.length s)%nat.
Proof.
  remember (String.length s) as n eqn:Hn.
  assert (Hle : (String.length s <= n)%nat) by lia. clear Hn.
  revert s Hle. induction n as [|n IH]; intros s Hle.
  - destruct s; [reflexivity | simpl in Hle; lia].
  - rewrite tokens_tcstok.
    destruct (tcstok_s d s) as [[tok|] ctx] eqn:Hs; simpl; [|lia].
    apply tcstok_shorter in Hs.
    specialize (IH ctx). lia.
Qed.

Example tokens_skip_empty_fields :
  tokens ";" ";;C:\a;C:\b;;C:\c;" = ["C:\a"; "C:\b"; "C:\c"].
Proof. reflexivity. Qed.

Example tcstok_s_first_token :
  tcstok_s ";" ";;C:\a;C:\b" = (Some "C:\a", "C:\b").
Proof. reflexivity. Qed.

Example format_d_is_signed : format_d 0xFFFFFFFF = "-1".
Proof. reflexivity. Qed.

Example copy_rejects_260_characters :
  tcscpy_s MAX_PATH (Sample.letters 259) = Some (Sample.letters 259) /\
  tcscpy_s MAX_PATH (Sample.letters 260) = None.
Proof. split; reflexivity. Qed.

(** ** The monad *)

Section Runs.

Variable os : OS.

Lemma bind_ret {A B : Type} (a : A) (k : A -> M os B) (w : world os) :
  bind os (ret a) k w = k a w.
Proof.
  unfold bind, ret. destruct (k a w) as [[r w'] t]. reflexivity.
Qed.

Lemma bind_assoc {A B C : Type} (m : M os A) (f : A -> M os B)
    (g : B -> M os C) (w : world os) :
  bind os (bind os m f) g w = bind os m (fun x => bind os (f x) g) w.
Proof.
  unfold bind. destruct (m w) as [[[a| | |] w1] t1]; try reflexivity.
  destruct (f a w1) as [[[b| | |] w2] t2]; try reflexivity.
  destruct (g b w2) as [[r w3] t3]. now rewrite app_assoc.
Qed.

(** A copy followed by a concatenation goes through exactly when the
    whole string fits. *)
Lemma copy_then_cat {A : Type} (s x : string) (k : string -> M os A)
    (w : world os) :
  bind os (bounded os (tcscpy_s MAX_PATH s))
    (fun p => bind os (bounded os (tcscat_s p MAX_PATH x)) k) w
  = if tlen (s ++ x) + 1 <=? MAX_PATH then k (s ++ x)%string w
    else (Crashed, w, []).
Proof.
  rewrite tlen_append. pose proof (tlen_nonneg x) as Hx.
  unfold tcscpy_s, tcscat_s.
  destruct (tlen s + 1 <=? MAX_PATH) eqn:H1;
    destruct (tlen s + tlen x + 1 <=? MAX_PATH) eqn:H2;
    unfold bounded; rewrite ?bind_ret; try rewrite H2; rewrite ?bind_ret;
    try reflexivity.
  apply Z.leb_gt in H1. apply Z.leb_le in H2. lia.
Qed.

Lemma error_code_exit_run {A : Type} (f : string) (c : DWORD) (w : world os) :
  exists w' te,
    error_code_exit os (A:=A) f c w = (Exited c, w', te) /\ reported f c te.
Proof.
  unfold error_code_exit, bind, MessageBox, ExitProcess.
  eexists _, _. split; [reflexivity|].
  eexists. reflexivity.
Qed.

Lemma msg_exit_run {A : Type} (msg : string) (w : world os) :
  exists w',
    msg_exit os (A:=A) msg w = (Exited 255, w', announced msg).
Proof.
  unfold msg_exit, bind, MessageBox, ExitProcess. eexists. reflexivity.
Qed.

Lemma error_exit_run {A : Type} (f : string) (w : world os) :
  exists e w' te,
    error_exit os (A:=A) f w = (Exited e, w', EvGetLastError e :: te) /\
    reported f e te.
Proof.
  unfold error_exit, bind at 1, GetLastError.
  destruct (sys_GetLastError os w) as [e w1].
  destruct (error_code_exit_run (A:=A) f e w1) as (w' & te & He & Hr).
  rewrite He. exists e, w', te. split; [reflexivity | assumption].
Qed.

Lemma bind_GetFileAttributes {A : Type} (p : string) (k : DWORD -> M os A)
    (w : world os) :
  bind os (GetFileAttributes os p) k w =
  match sys_GetFileAttributes os p w with
  | (a, w1) =>
      match k a w1 with
      | (r, w2, t) => (r, w2, EvGetFileAttributes p a :: t)
      end
  end.
Proof.
  unfold bind, GetFileAttributes.
  destruct (sys_GetFileAttributes os p w) as [a w1]. reflexivity.
Qed.

Lemma bind_RegGetValue {A : Type} (h : HKEY) (s : string) (fl cb : DWORD)
    (k : DWORD * string * DWORD -> M os A) (w : world os) :
  bind os (RegGetValue os h s fl cb) k w =
  match sys_RegGetValue os h s fl cb w with
  | (r, data, cb', w1) =>
      match k (r, data, cb') w1 with
      | (res, w2, t) => (res, w2, EvRegGetValue h s fl cb r data cb' :: t)
      end
  end.
Proof.
  unfold bind, RegGetValue.
  destruct (sys_RegGetValue os h s fl cb w) as [[[r data] cb'] w1].
  reflexivity.
Qed.

Lemma bind_RegEnumKeyEx {A : Type} (h : HKEY) (i cch : DWORD)
    (k : DWORD * string * DWORD -> M os A) (w : world os) :
  bind os (RegEnumKeyEx os h i cch) k w =
  match sys_RegEnumKeyEx os h i cch w with
  | (r, name, cch', w1) =>
      match k (r, name, cch') w1 with
      | (res, w2, t) => (res, w2, EvRegEnumKeyEx h i cch r name cch' :: t)
      end
  end.
Proof.
  unfold bind, RegEnumKeyEx.
  destruct (sys_RegEnumKeyEx os h i cch w) as [[[r name] cch'] w1].
  reflexivity.
Qed.

Lemma bind_RegOpenKeyEx {A : Type} (h : HKEY) (s : string) (o sam : DWORD)
    (k : DWORD * HKEY -> M os A) (w : world os) :
  bind os (RegOpenKeyEx os h s o sam) k w =
  match sys_RegOpenKeyEx os h s o sam w with
  | (r, h', w1) =>
      match k (r, h') w1 with
      | (res, w2, t) => (res, w2, EvRegOpenKeyEx h s o sam r h' :: t)
      end
  end.
Proof.
  unfold bind, RegOpenKeyEx.
  destruct (sys_RegOpenKeyEx os h s o sam w) as [[r h'] w1]. reflexivity.
Qed.

Lemma bind_CreateProcess {A : Type} (c : string) (b : bool) (fl : DWORD)
    (d : string) (si : STARTUPINFO)
    (k : bool * PROCESS_INFORMATION -> M os A) (w : world os) :
  bind os (CreateProcess os c b fl d si) k w =
  match sys_CreateProcess os c b fl d si w with
  | (ok, pi, w1) =>
      match k (ok, pi) w1 with
      | (res, w2, t) => (res, w2, EvCreateProcess c b fl d si ok pi :: t)
      end
  end.
Proof.
  unfold bind, CreateProcess.
  destruct (sys_CreateProcess os c b fl d si w) as [[ok pi] w1]. reflexivity.
Qed.

Lemma bind_WaitForSingleObject {A : Type} (h : HANDLE) (ms : DWORD)
    (k : DWORD -> M os A) (w : world os) :
  bind os (WaitForSingleObject os h ms) k w =
  match sys_WaitForSingleObject os h ms w with
  | (r, w1) =>
      match k r w1 with
      | (res, w2, t) => (res, w2, EvWaitForSingleObject h ms r :: t)
      end
  end.
Proof.
  unfold bind, WaitForSingleObject.
  destruct (sys_WaitForSingleObject os h ms w) as [r w1]. reflexivity.
Qed.

Lemma bind_CloseHandle {A : Type} (h : HANDLE) (k : bool -> M os A)
    (w : world os) :
  bind os (CloseHandle os h) k w =
  match sys_CloseHandle os h w with
  | (ok, w1) =>
      match k ok w1 with
      | (res, w2, t) => (res, w2, EvCloseHandle h ok :: t)
      end
  end.
Proof.
  unfold bind, CloseHandle.
  destruct (sys_CloseHandle os h w) as [ok w1]. reflexivity.
Qed.

Lemma toks_of_tcstok (s : string) :
  tokens ";" s = toks_of (fst (tcstok_s ";" s)) (snd (tcstok_s ";" s)).
Proof.
  rewrite tokens_tcstok. destruct (tcstok_s ";" s) as [[tok|] ctx]; reflexivity.
Qed.

Lemma token_loop_run (root : HKEY) (keyname : string) (n : nat) :
  forall token ctx ps w r w' t,
    (List.length (toks_of token ctx) <= n)%nat ->
    token_loop os n root keyname token ctx ps w = (r, w', t) ->
    token_run root keyname ps (toks_of token ctx) r t.
Proof.
  induction n as [|n IH]; intros token ctx ps w r w' t Hn Hrun.
  - destruct token as [tok|]; simpl in *; [lia|].
    inversion Hrun; subst. constructor.
  - destruct token as [tok|]; simpl in *;
      [|inversion Hrun; subst; constructor].
    rewrite copy_then_cat in Hrun.
    destruct (tlen (tok ++ "\site-packages\winsync") + 1 <=? MAX_PATH)
      eqn:Hfit;
      [apply Z.leb_le in Hfit
      |apply Z.leb_gt in Hfit; inversion Hrun; subst;
       apply tr_overlong; unfold fits; lia].
    rewrite bind_GetFileAttributes in Hrun.
    destruct (sys_GetFileAttributes os _ w) as [attrs w1].
    destruct (attrs =? INVALID_FILE_ATTRIBUTES) eqn:Hattrs; cbn [negb] in Hrun.
    + apply Z.eqb_eq in Hattrs. subst attrs.
      rewrite (toks_of_tcstok ctx) in Hn |- *.
      destruct (tcstok_s ";" ctx) as [token' ctx'].
      destruct (token_loop os n root keyname token' ctx' ps w1)
        as [[r1 w2] t1] eqn:Hloop.
      inversion Hrun; subst.
      cbn [fst snd] in Hn |- *.
      apply tr_miss; [exact Hfit|].
      apply (IH token' ctx' ps w1 r w' t1); [lia | exact Hloop].
    + apply Z.eqb_neq in Hattrs.
      rewrite copy_then_cat in Hrun.
      destruct (tlen (keyname ++ "\InstallPath") + 1 <=? MAX_PATH) eqn:Hkey;
        [apply Z.leb_le in Hkey
        |apply Z.leb_gt in Hkey; inversion Hrun; subst;
         apply tr_hit_overlong; unfold fits; auto; lia].
      rewrite bind_RegGetValue in Hrun.
      destruct (sys_RegGetValue os _ _ _ _ w1) as [[[rv data] cb] w2].
      destruct (rv =? ERROR_SUCCESS) eqn:Hrv; cbn [negb] in Hrun.
      * apply Z.eqb_eq in Hrv. subst rv. inversion Hrun; subst.
        apply tr_hit; assumption.
      * apply Z.eqb_neq in Hrv.
        destruct (error_code_exit_run (A:=option string)
                    "RegGetValue (installpath)" rv w2)
          as (w3 & te & He & Hr).
        rewrite He in Hrun. inversion Hrun; subst.
        apply tr_hit_failed; assumption.
Qed.

Lemma enum_loop_run (root : HKEY) (fuel : nat) :
  forall r k i ps cch w res w' t,
    enum_loop os fuel root r k (DWORD_incr i) ps w = (res, w', t) ->
    scan_run root i ps res (EvRegEnumKeyEx root i MAX_PATH r k cch :: t).
Proof.
  induction fuel as [|fuel IH]; intros r k i ps cch w res w' t Hrun;
    simpl in Hrun;
    (destruct (r =? ERROR_SUCCESS) eqn:Hr;
     [apply Z.eqb_eq in Hr; subst r
     |apply Z.eqb_neq in Hr;
      destruct (r =? ERROR_NO_MORE_ITEMS) eqn:Hr';
      [apply Z.eqb_eq in Hr'; subst r;
       destruct (msg_exit_run (A:=string)
                   "Could not find a WinSync install" w) as (w1 & He);
       rewrite He in Hrun; inversion Hrun; subst; apply sr_no_more
      |apply Z.eqb_neq in Hr';
       destruct (error_code_exit_run (A:=string) "RegEnumKeyEx" r w)
         as (w1 & te & He & Hrep);
       rewrite He in Hrun; inversion Hrun; subst;
       apply sr_enum_failed; assumption]]).
  - inversion Hrun; subst. apply sr_unfinished.
  - rewrite copy_then_cat in Hrun.
    destruct (tlen (k ++ "\PythonPath") + 1 <=? MAX_PATH) eqn:Hfit;
      [apply Z.leb_le in Hfit
      |apply Z.leb_gt in Hfit; inversion Hrun; subst;
       apply sr_overlong; unfold fits; lia].
    rewrite bind_RegGetValue in Hrun.
    destruct (sys_RegGetValue os _ _ _ _ w) as [[[rv paths] cb] w1].
    destruct (rv =? ERROR_SUCCESS) eqn:Hrv;
      [apply Z.eqb_eq in Hrv; subst rv
      |apply Z.eqb_neq in Hrv; destruct (rv =? 2) eqn:Hrv2;
       cbn [negb] in Hrun;
       [apply Z.eqb_eq in Hrv2; subst rv | apply Z.eqb_neq in Hrv2]].
    + (* the value was read: the tokens are probed *)
      pose proof (tokens_length ";" paths) as Hlen.
      rewrite (toks_of_tcstok paths) in Hlen.
      pose proof (toks_of_tcstok paths) as Htoks.
      destruct (tcstok_s ";" paths) as [token ctx]. cbn [fst snd] in *.
      rewrite bind_assoc in Hrun. unfold bind at 1 in Hrun.
      destruct (token_loop os (String.length paths) root k token ctx cb w1)
        as [[rt w2] tt] eqn:Htok.
      apply token_loop_run in Htok; [|exact Hlen].
      rewrite <- Htoks in Htok.
      destruct rt as [[path|]| | |].
      * rewrite !bind_ret in Hrun. unfold ret in Hrun.
        inversion Hrun; subst. rewrite app_nil_r.
        eapply sr_stopped; [exact Hfit | exact Htok | reflexivity].
      * rewrite bind_ret, bind_RegEnumKeyEx in Hrun.
        destruct (sys_RegEnumKeyEx os _ _ _ w2) as [[[r' k'] cch'] w3].
        destruct (enum_loop os fuel root r' k' _ cb w3)
          as [[res' w4] t'] eqn:Hnext.
        inversion Hrun; subst.
        eapply sr_probed; [exact Hfit | exact Htok |].
        eapply IH. exact Hnext.
      * inversion Hrun; subst.
        eapply sr_stopped; [exact Hfit | exact Htok | reflexivity].
      * inversion Hrun; subst.
        eapply sr_stopped; [exact Hfit | exact Htok | reflexivity].
      * inversion Hrun; subst.
        eapply sr_stopped; [exact Hfit | exact Htok | reflexivity].
    + (* no PythonPath below this subkey: it is skipped *)
      rewrite bind_ret, bind_RegEnumKeyEx in Hrun.
      destruct (sys_RegEnumKeyEx os _ _ _ w1) as [[[r' k'] cch'] w3].
      destruct (enum_loop os fuel root r' k' _ cb w3)
        as [[res' w4] t'] eqn:Hnext.
      inversion Hrun; subst.
      eapply sr_skipped; [exact Hfit |].
      eapply IH. exact Hnext.
    + unfold bind at 1 in Hrun.
      destruct (error_code_exit_run (A:=option string * DWORD)
                  "RegGetValue" rv w1) as (w2 & te & He & Hrep).
      rewrite He in Hrun. inversion Hrun; subst.
      apply sr_read_failed; assumption.
Qed.

Lemma open_PythonCore_run (w : world os) :
  (exists root w' r0 h0,
     open_PythonCore os w =
       (Returned root, w',
        [EvRegOpenKeyEx HKEY_LOCAL_MACHINE (keys 0) 0 read_rights
           ERROR_SUCCESS root]) \/
     r0 <> ERROR_SUCCESS /\
     open_PythonCore os w =
       (Returned root, w',
        [EvRegOpenKeyEx HKEY_LOCAL_MACHINE (keys 0) 0 read_rights r0 h0;
         EvRegOpenKeyEx HKEY_LOCAL_MACHINE (keys 1) 0 read_rights
           ERROR_SUCCESS root])) \/
  (exists w' r0 h0 r1 h1 te,
     r0 <> ERROR_SUCCESS /\ r1 <> ERROR_SUCCESS /\
     reported "RegOpenKeyEx" r1 te /\
     open_PythonCore os w =
       (Exited r1, w',
        EvRegOpenKeyEx HKEY_LOCAL_MACHINE (keys 0) 0 read_rights r0 h0
        :: EvRegOpenKeyEx HKEY_LOCAL_MACHINE (keys 1) 0 read_rights r1 h1
        :: te)).
Proof.
  unfold open_PythonCore. fold read_rights.
  rewrite bind_RegOpenKeyEx.
  destruct (sys_RegOpenKeyEx os _ _ _ _ w) as [[r0 h0] w1].
  destruct (r0 =? ERROR_SUCCESS) eqn:H0; cbn [negb].
  - apply Z.eqb_eq in H0. subst r0. rewrite bind_ret.
    rewrite Z.eqb_refl. cbn [negb]. unfold ret.
    left. exists h0, w1, 0, 0. left. reflexivity.
  - apply Z.eqb_neq in H0. rewrite bind_RegOpenKeyEx.
    destruct (sys_RegOpenKeyEx os _ _ _ _ w1) as [[r1 h1] w2].
    destruct (r1 =? ERROR_SUCCESS) eqn:H1; cbn [negb].
    + apply Z.eqb_eq in H1. subst r1. unfold ret.
      left. exists h1, w2, r0, h0. right. split; [exact H0 | reflexivity].
    + apply Z.eqb_neq in H1.
      destruct (error_code_exit_run (A:=HKEY) "RegOpenKeyEx" r1 w2)
        as (w3 & te & He & Hrep).
      rewrite He. right. exists w3, r0, h0, r1, h1, te. auto.
Qed.

(** Every run of [find_winsync] is one of the runs [find_run] lists. *)
Lemma find_winsync_run (fuel : nat) (w : world os) res w' t :
  find_winsync os fuel w = (res, w', t) -> find_run res t.
Proof.
  unfold find_winsync. intros Hrun. unfold bind at 1 in Hrun.
  destruct (open_PythonCore_run w)
    as [(root & w1 & r0 & h0 & [He | [H0 He]])
       |(w1 & r0 & h0 & r1 & h1 & te & H0 & H1 & Hrep & He)];
    rewrite He in Hrun.
  - rewrite bind_RegEnumKeyEx in Hrun.
    destruct (sys_RegEnumKeyEx os _ _ _ w1) as [[[r k] cch] w2].
    destruct (enum_loop os fuel root r k _ MAX_PATH w2)
      as [[res' w3] t'] eqn:Hloop.
    inversion Hrun; subst. apply fr_native.
    eapply enum_loop_run. exact Hloop.
  - rewrite bind_RegEnumKeyEx in Hrun.
    destruct (sys_RegEnumKeyEx os _ _ _ w1) as [[[r k] cch] w2].
    destruct (enum_loop os fuel root r k _ MAX_PATH w2)
      as [[res' w3] t'] eqn:Hloop.
    inversion Hrun; subst. apply fr_wow64; [exact H0|].
    eapply enum_loop_run. exact Hloop.
  - inversion Hrun; subst. apply fr_no_key; assumption.
Qed.

Lemma wait_passes_intro (w : DWORD) :
  (w =? WAIT_ABANDONED) = false -> (w =? WAIT_TIMEOUT) = false ->
  (w =? WAIT_FAILED) = false -> wait_passes w.
Proof.
  intros H1 H2 H3. repeat split; apply Z.eqb_neq; assumption.
Qed.

(** A run of [_tWinMain] is the run of [find_winsync] and, when that
    returns, one of the runs [launch_run] lists. *)
Lemma tWinMain_launch (fuel : nat) (lpCmdLine : string) (nCmdShow : Z)
    (w : world os) res w' t rf w1 tf :
  _tWinMain os fuel lpCmdLine nCmdShow w = (res, w', t) ->
  find_winsync os fuel w = (rf, w1, tf) ->
  match rf with
  | Returned path => exists tl, t = tf ++ tl /\ launch_run path res tl
  | _ => t = tf /\ stopped rf = Some res
  end.
Proof.
  unfold _tWinMain. intros Hrun Hfind. unfold bind at 1 in Hrun.
  rewrite Hfind in Hrun.
  destruct rf as [path| | |];
    try (inversion Hrun; subst; split; reflexivity).
  match type of Hrun with
  | context [let (_, _) := ?X in _] => destruct X as [[r2 w2] t2] eqn:Hrest
  end.
  inversion Hrun; subst. exists t2. split; [reflexivity|]. clear Hrun Hfind.
  rewrite copy_then_cat in Hrest.
  assert (Hlen : tlen (command_line path)
                 = tlen (path ++ "python.exe") + tlen " -m winsync.run")
    by (unfold command_line; apply tlen_append).
  pose proof (tlen_nonneg " -m winsync.run") as Hpos.
  destruct (tlen (path ++ "python.exe") + 1 <=? MAX_PATH) eqn:H1;
    [|apply Z.leb_gt in H1; inversion Hrest; subst;
      apply lr_overlong; unfold fits; lia].
  unfold tcscat_s in Hrest.
  destruct (tlen (path ++ "python.exe") + tlen " -m winsync.run" + 1
            <=? MAX_PATH) eqn:H2;
    [apply Z.leb_le in H2
    |apply Z.leb_gt in H2; inversion Hrest; subst;
     apply lr_overlong; unfold fits; lia].
  assert (Hfit : fits (command_line path)) by (unfold fits; lia).
  unfold bounded in Hrest. rewrite bind_ret, bind_CreateProcess in Hrest.
  fold (command_line path) in Hrest.
  destruct (sys_CreateProcess os _ _ _ _ _ w1) as [[ok pi] w3].
  fold (spawn path ok pi) in Hrest.
  destruct ok; cbn [negb] in Hrest.
  - rewrite bind_ret, bind_WaitForSingleObject in Hrest.
    destruct (sys_WaitForSingleObject os _ _ w3) as [wr w4].
    destruct (wr =? WAIT_ABANDONED) eqn:Ha;
      [apply Z.eqb_eq in Ha; subst wr; unfold bind at 1 in Hrest;
       destruct (msg_exit_run (A:=unit) "Wait abandoned" w4) as (w5 & He);
       rewrite He in Hrest; inversion Hrest; subst;
       apply lr_abandoned; exact Hfit|].
    destruct (wr =? WAIT_TIMEOUT) eqn:Hb;
      [apply Z.eqb_eq in Hb; subst wr; unfold bind at 1 in Hrest;
       destruct (msg_exit_run (A:=unit)
                   "Timout reached, should have waited indefinately." w4)
         as (w5 & He);
       rewrite He in Hrest; inversion Hrest; subst;
       apply lr_timeout; exact Hfit|].
    destruct (wr =? WAIT_FAILED) eqn:Hc;
      [apply Z.eqb_eq in Hc; subst wr; unfold bind at 1 in Hrest;
       destruct (error_exit_run (A:=unit) "WaitForSingleObject" w4)
         as (e & w5 & te & He & Hrep);
       rewrite He in Hrest; inversion Hrest; subst;
       apply lr_wait_failed; assumption|].
    pose proof (wait_passes_intro wr Ha Hb Hc) as Hpass.
    rewrite bind_ret, bind_CloseHandle in Hrest.
    destruct (sys_CloseHandle os _ w4) as [ok1 w5].
    destruct ok1; cbn [negb] in Hrest.
    + rewrite bind_ret, bind_CloseHandle in Hrest.
      destruct (sys_CloseHandle os _ w5) as [ok2 w6].
      destruct ok2; cbn [negb] in Hrest.
      * unfold ret in Hrest. inversion Hrest; subst.
        apply lr_done; assumption.
      * destruct (error_exit_run (A:=unit) "CloseHandle (thread)" w6)
          as (e & w7 & te & He & Hrep).
        rewrite He in Hrest. inversion Hrest; subst.
        apply lr_close_thread_failed; assumption.
    + unfold bind at 1 in Hrest.
      destruct (error_exit_run (A:=unit) "CloseHandle (process)" w5)
        as (e & w6 & te & He & Hrep).
      rewrite He in Hrest. inversion Hrest; subst.
      apply lr_close_process_failed; assumption.
  - unfold bind at 1 in Hrest.
    destruct (error_exit_run (A:=unit) "CreateProcess" w3)
      as (e & w4 & te & He & Hrep).
    rewrite He in Hrest. inversion Hrest; subst.
    apply lr_spawn_failed; assumption.
Qed.

(** Every run of [_tWinMain] is one of the runs [main_run] lists. *)
Lemma tWinMain_run (fuel : nat) (lpCmdLine : string) (nCmdShow : Z)
    (w : world os) res w' t :
  _tWinMain os fuel lpCmdLine nCmdShow w = (res, w', t) -> main_run res t.
Proof.
  intros Hrun.
  destruct (find_winsync os fuel w) as [[rf w1] tf] eqn:Hfind.
  pose proof (tWinMain_launch _ _ _ _ _ _ _ _ _ _ Hrun Hfind) as H.
  apply find_winsync_run in Hfind.
  destruct rf as [path| | |];
    try (destruct H as [-> Hs]; eapply mr_stopped; [exact Hfind | exact Hs]).
  destruct H as (tl & -> & Hl). eapply mr_launched; eassumption.
Qed.

(** *** The trace is what the operating system answered *)

Lemma chain_app (w w1 w2 : world os) (t1 t2 : list event) :
  chain os w t1 w1 -> chain os w1 t2 w2 -> chain os w (t1 ++ t2) w2.
Proof.
  induction 1 as [|w e wm t w1 He Ht IH]; intros H2; simpl.
  - exact H2.
  - econstructor; [exact He | exact (IH H2)].
Qed.

Lemma chained_ret {A : Type} (a : A) : chained (ret (os:=os) a).
Proof. intros w. apply chain_nil. Qed.

Lemma chained_crash {A : Type} : chained (crash (os:=os) (A:=A)).
Proof. intros w. apply chain_nil. Qed.

Lemma chained_unfinished {A : Type} : chained (unfinished (os:=os) (A:=A)).
Proof. intros w. apply chain_nil. Qed.

Lemma chained_bind {A B : Type} (m : M os A) (k : A -> M os B) :
  chained m -> (forall a, chained (k a)) -> chained (bind os m k).
Proof.
  intros Hm Hk w. specialize (Hm w). unfold bind, trace, final in *.
  destruct (m w) as [[[a| | |] w1] t1]; simpl in *; try exact Hm.
  specialize (Hk a w1). unfold trace, final in Hk.
  destruct (k a w1) as [[r w2] t2]. simpl in *.
  eapply chain_app; eassumption.
Qed.

Lemma chained_bounded (o : option string) : chained (bounded os o).
Proof. destruct o; [apply chained_ret | apply chained_crash]. Qed.

Ltac one_call f :=
  let H := fresh "Hcall" in
  intros w; unfold f, trace, final;
  match goal with
  | |- context [match ?x with _ => _ end] => destruct x eqn:H
  end;
  repeat match goal with p : (_ * _)%type |- _ => destruct p end;
  simpl; econstructor; [exact H | apply chain_nil].

Lemma chained_RegOpenKeyEx h s o sam : chained (RegOpenKeyEx os h s o sam).
Proof. one_call RegOpenKeyEx. Qed.

Lemma chained_RegEnumKeyEx h i cch : chained (RegEnumKeyEx os h i cch).
Proof. one_call RegEnumKeyEx. Qed.

Lemma chained_RegGetValue h s fl cb : chained (RegGetValue os h s fl cb).
Proof. one_call RegGetValue. Qed.

Lemma chained_GetFileAttributes p : chained (GetFileAttributes os p).
Proof. one_call GetFileAttributes. Qed.

Lemma chained_CreateProcess c b fl d si :
  chained (CreateProcess os c b fl d si).
Proof. one_call CreateProcess. Qed.

Lemma chained_WaitForSingleObject h ms :
  chained (WaitForSingleObject os h ms).
Proof. one_call WaitForSingleObject. Qed.

Lemma chained_CloseHandle h : chained (CloseHandle os h).
Proof. one_call CloseHandle. Qed.

Lemma chained_GetLastError : chained (GetLastError os).
Proof. one_call GetLastError. Qed.

Lemma chained_MessageBox text caption style :
  chained (MessageBox os text caption style).
Proof.
  intros w. unfold MessageBox, trace, final. simpl.
  econstructor; [reflexivity | apply chain_nil].
Qed.

Lemma chained_ExitProcess {A : Type} c : chained (ExitProcess os (A:=A) c).
Proof.
  intros w. unfold ExitProcess, trace, final. simpl.
  econstructor; [reflexivity | apply chain_nil].
Qed.

Lemma chained_error_code_exit {A : Type} f c :
  chained (error_code_exit os (A:=A) f c).
Proof.
  intros w. unfold error_code_exit.
  apply chained_bind;
    [apply chained_MessageBox | intros _; apply chained_ExitProcess].
Qed.

Lemma chained_error_exit {A : Type} f : chained (error_exit os (A:=A) f).
Proof.
  apply chained_bind;
    [apply chained_GetLastError | intros e; apply chained_error_code_exit].
Qed.

Lemma chained_msg_exit {A : Type} msg : chained (msg_exit os (A:=A) msg).
Proof.
  apply chained_bind;
    [apply chained_MessageBox | intros _; apply chained_ExitProcess].
Qed.

Create HintDb chained_db.

Hint Resolve chained_ret chained_crash chained_unfinished chained_bounded
  chained_RegOpenKeyEx chained_RegEnumKeyEx chained_RegGetValue
  chained_GetFileAttributes chained_CreateProcess
  chained_WaitForSingleObject chained_CloseHandle chained_GetLastError
  chained_error_code_exit chained_error_exit chained_msg_exit : chained_db.

(** Goes through a computation along its binds, tests and patterns. *)
Ltac chained_steps :=
  repeat first
    [ progress auto with chained_db
    | apply chained_bind
    | match goal with |- forall _, _ => intro end
    | match goal with
      | |- chained (if ?b then _ else _) => destruct b
      | |- chained (match ?x with _ => _ end) => destruct x
      | |- chained (let (_, _) := ?x in _) => destruct x
      end ].

Lemma chained_token_loop root keyname n :
  forall token ctx ps,
    chained (token_loop os n root keyname token ctx ps).
Proof.
  induction n as [|n IH]; intros [tok|] ctx ps; simpl; chained_steps.
Qed.

Lemma chained_enum_loop root fuel :
  forall r k i ps, chained (enum_loop os fuel root r k i ps).
Proof.
  pose proof chained_token_loop as Htok.
  induction fuel as [|fuel IH]; intros r k i ps; simpl; chained_steps.
Qed.

Lemma chained_find_winsync fuel : chained (find_winsync os fuel).
Proof.
  pose proof chained_enum_loop as Hloop.
  unfold find_winsync, open_PythonCore. chained_steps.
Qed.

Lemma chained_tWinMain fuel lpCmdLine nCmdShow :
  chained (_tWinMain os fuel lpCmdLine nCmdShow).
Proof.
  pose proof chained_find_winsync as Hfind.
  unfold _tWinMain. chained_steps.
Qed.

(** What holds of every answer of the operating system holds of every
    entry of a chain. *)
Lemma chain_Forall (P : event -> Prop) (w w' : world os) (t : list event) :
  (forall w0 e w1, answers os w0 e w1 -> P e) ->
  chain os w t w' -> Forall P t.
Proof.
  intros HP. induction 1; constructor; eauto.
Qed.

End Runs.

(** ** Fuel

    The fuel of the enumeration loop only decides whether a run is cut
    short: a run that comes to an end is the same with any larger fuel. *)

Section Fuel.

Variable os : OS.

Lemma extends_refl {A : Type} (m : M os A) : extends m m.
Proof. intros w r w' t H _. exact H. Qed.

Lemma extends_bind {A B : Type} (m : M os A) (k k' : A -> M os B) :
  (forall a, extends (k a) (k' a)) -> extends (bind os m k) (bind os m k').
Proof.
  intros Hk w r w' t. unfold bind.
  destruct (m w) as [[[a| | |] w1] t1]; auto.
  destruct (k a w1) as [[r1 w2] t2] eqn:Hka. intros H Hr.
  inversion H; subst. rewrite (Hk a w1 r w' t2 Hka Hr). reflexivity.
Qed.

Lemma enum_loop_extends root fuel :
  forall fuel' r k i ps,
    (fuel <= fuel')%nat ->
    extends (enum_loop os fuel root r k i ps)
            (enum_loop os fuel' root r k i ps).
Proof.
  induction fuel as [|fuel IH]; intros [|fuel'] r k i ps Hle;
    try apply extends_refl; try lia; simpl;
    destruct (r =? ERROR_SUCCESS); try apply extends_refl.
  - intros w res w' t H Hr. inversion H; subst. contradiction.
  - repeat first
      [ apply IH; lia
      | apply extends_bind
      | match goal with
        | |- forall _ : _ * _, _ => intros [? ?]
        | |- forall _, _ => intro
        | |- extends (match ?x with _ => _ end) _ => destruct x
        end
      | apply extends_refl ].
Qed.

(** Once [find_winsync] has come to an end, more fuel changes nothing. *)
Lemma find_winsync_extends fuel fuel' :
  (fuel <= fuel')%nat ->
  extends (find_winsync os fuel) (find_winsync os fuel').
Proof.
  intros Hle. unfold find_winsync.
  apply extends_bind. intros root.
  apply extends_bind. intros [[r k] cch].
  apply enum_loop_extends. exact Hle.
Qed.

Lemma extends_bind_first {A B : Type} (m m' : M os A) (k : A -> M os B) :
  extends m m' -> extends (bind os m k) (bind os m' k).
Proof.
  intros Hm w r w' t. unfold bind.
  destruct (m w) as [[rm w1] t1] eqn:Hmw.
  destruct rm as [a| | |]; intros H Hr;
    try (rewrite (Hm w _ _ _ Hmw) by discriminate; exact H).
  inversion H; subst. contradiction.
Qed.

Lemma tWinMain_extends fuel fuel' lpCmdLine nCmdShow :
  (fuel <= fuel')%nat ->
  extends (_tWinMain os fuel lpCmdLine nCmdShow)
          (_tWinMain os fuel' lpCmdLine nCmdShow).
Proof.
  intros Hle. unfold _tWinMain.
  apply extends_bind_first, find_winsync_extends, Hle.
Qed.

End Fuel.

(** ** What every run satisfies, read off the shapes *)

Lemma reported_Forall (P : event -> Prop) f c te :
  reported f c te ->
  (forall text, P (EvMessageBox text "Error" box_style)) ->
  P (EvExitProcess c) ->
  Forall P te.
Proof.
  intros (msg & ->) H1 H2. repeat constructor; auto.
Qed.

Lemma announced_Forall (P : event -> Prop) msg :
  P (EvMessageBox msg "ERROR" box_style) ->
  P (EvExitProcess 255) ->
  Forall P (announced msg).
Proof.
  intros H1 H2. repeat constructor; auto.
Qed.

(** A property of entries that holds of all but some registry calls and
    some process calls holds of a whole run once it holds of those. *)
Section Everywhere.

Variable P : event -> Prop.
Variable root : HKEY.

Hypothesis P_enum : forall i r k cch, P (EvRegEnumKeyEx root i MAX_PATH r k cch).
Hypothesis P_value :
  forall s ps r data cb, P (EvRegGetValue root s RRF_RT_REG_SZ ps r data cb).
Hypothesis P_probe : forall p a, P (EvGetFileAttributes p a).
Hypothesis P_box : forall text caption, P (EvMessageBox text caption box_style).
Hypothesis P_exit : forall c, P (EvExitProcess c).

Lemma token_run_Forall k ps toks r t :
  token_run root k ps toks r t -> Forall P t.
Proof.
  induction 1; unfold probe; repeat constructor; auto.
  eapply reported_Forall; eauto.
Qed.

Lemma scan_run_Forall i ps res t :
  scan_run root i ps res t -> Forall P t.
Proof.
  induction 1; repeat (apply Forall_cons; [now auto|]);
    try apply Forall_app;
    eauto using reported_Forall, announced_Forall, token_run_Forall.
Qed.

End Everywhere.

(** The same for a whole run of [find_winsync] or of [_tWinMain], for a
    property that holds of every call these make. *)
Section EverywhereInMain.

Variable P : event -> Prop.

Hypothesis P_open :
  forall s r h, P (EvRegOpenKeyEx HKEY_LOCAL_MACHINE s 0 read_rights r h).
Hypothesis P_enum :
  forall root i r k cch, P (EvRegEnumKeyEx root i MAX_PATH r k cch).
Hypothesis P_value :
  forall root s ps r data cb,
    P (EvRegGetValue root s RRF_RT_REG_SZ ps r data cb).
Hypothesis P_probe : forall p a, P (EvGetFileAttributes p a).
Hypothesis P_box : forall text caption, P (EvMessageBox text caption box_style).
Hypothesis P_exit : forall c, P (EvExitProcess c).

Lemma find_run_Forall res t : find_run res t -> Forall P t.
Proof.
  destruct 1; repeat (apply Forall_cons; [now auto|]);
    eauto using reported_Forall, scan_run_Forall.
Qed.

Hypothesis P_wait : forall h r, P (EvWaitForSingleObject h INFINITE r).
Hypothesis P_close : forall h ok, P (EvCloseHandle h ok).
Hypothesis P_last_error : forall e, P (EvGetLastError e).

Lemma launch_run_Forall path r t :
  (forall ok pi, P (spawn path ok pi)) ->
  launch_run path r t -> Forall P t.
Proof.
  intros P_spawn.
  destruct 1; repeat (apply Forall_cons; [now auto|]);
    eauto using reported_Forall, announced_Forall.
Qed.

Hypothesis P_spawn : forall path ok pi, P (spawn path ok pi).

Lemma main_run_Forall r t : main_run r t -> Forall P t.
Proof.
  destruct 1; [|apply Forall_app; split];
    eauto using find_run_Forall, launch_run_Forall.
Qed.

End EverywhereInMain.

Lemma chain_frame (os : OS) (X : Type) (obs : world os -> X)
    (P : event -> Prop) (w w' : world os) (t : list event) :
  (forall w0 e w1, answers os w0 e w1 -> P e -> obs w1 = obs w0) ->
  chain os w t w' -> Forall P t -> obs w' = obs w.
Proof.
  intros Hstep. induction 1 as [|w e w1 t w' He Ht IH]; intros Hall.
  - reflexivity.
  - inversion Hall; subst. rewrite IH by assumption. eauto.
Qed.

(** *** C4 *)

(** C4.  [find_winsync] first opens SOFTWARE\Python\PythonCore under
    HKEY_LOCAL_MACHINE.  When that succeeds it opens nothing else, and every
    enumeration and read that follows is under the key obtained.  When it
    fails, the next call opens SOFTWARE\Wow6432Node\Python\PythonCore; if
    that succeeds the same holds with that key, and if it fails too, an error
    box is shown and the process exits with the code of the second opening.
    No other key is ever opened or scanned. *)
Theorem find_winsync_two_locations (os : OS) (fuel : nat) (w : world os) :
  let run := find_winsync os fuel w in
  exists r0 h0 rest,
    trace run =
      EvRegOpenKeyEx HKEY_LOCAL_MACHINE "SOFTWARE\Python\PythonCore" 0
        read_rights r0 h0 :: rest /\
    (r0 = ERROR_SUCCESS -> Forall (on_key h0) rest) /\
    (r0 <> ERROR_SUCCESS ->
     exists r1 h1 rest',
       rest =
         EvRegOpenKeyEx HKEY_LOCAL_MACHINE
           "SOFTWARE\Wow6432Node\Python\PythonCore" 0 read_rights r1 h1
         :: rest' /\
       (r1 = ERROR_SUCCESS -> Forall (on_key h1) rest') /\
       (r1 <> ERROR_SUCCESS ->
        outcome run = Exited r1 /\ reported "RegOpenKeyEx" r1 rest')).
Proof.
  intros run. subst run.
  destruct (find_winsync os fuel w) as [[res w'] t] eqn:Hrun.
  apply find_winsync_run in Hrun. unfold trace, outcome. simpl.
  assert (Hscan : forall root i ps res t,
             scan_run root i ps res t -> Forall (on_key root) t)
    by (intros; eapply scan_run_Forall; eauto; simpl; auto).
  inversion Hrun; subst.
  - exists ERROR_SUCCESS, root, t0. split; [reflexivity|]. split.
    + intros _. eauto.
    + intros Hne. now elim Hne.
  - exists r0, h0, (EvRegOpenKeyEx HKEY_LOCAL_MACHINE (keys 1) 0 read_rights
                      ERROR_SUCCESS root :: t0).
    split; [reflexivity|]. split; [intros He; contradiction|].
    intros _. exists ERROR_SUCCESS, root, t0. split; [reflexivity|]. split.
    + intros _. eauto.
    + intros Hne. now elim Hne.
  - exists r0, h0, (EvRegOpenKeyEx HKEY_LOCAL_MACHINE (keys 1) 0 read_rights
                      r1 h1 :: te).
    split; [reflexivity|]. split; [intros He; contradiction|].
    intros _. exists r1, h1, te. split; [reflexivity|]. split.
    + intros He; contradiction.
    + intros _. split; [reflexivity | assumption].
Qed.

(** *** C7 *)

(** C7.  Every call a run of the launcher makes is one that leaves the
    registry and the file system as they are: a key is only ever opened with
    the access rights KEY_READ | KEY_ENUMERATE_SUB_KEYS, and the only other
    calls are enumerations, reads of values, queries of file attributes, the
    calls on the child process, and the message box and exit.  Hence anything
    observable of the world that such calls do not change (the registry and
    the files) is the same after the run as before it. *)
Theorem launcher_changes_nothing (os : OS) (X : Type) (obs : world os -> X)
    (fuel : nat) (lpCmdLine : string) (nCmdShow : Z) (w : world os) :
  (forall w0 e w1, answers os w0 e w1 -> read_only e -> obs w1 = obs w0) ->
  let run := _tWinMain os fuel lpCmdLine nCmdShow w in
  Forall read_only (trace run) /\ obs (final run) = obs w.
Proof.
  intros Hframe run.
  assert (Hall : Forall read_only (trace run)).
  { subst run.
    destruct (_tWinMain os fuel lpCmdLine nCmdShow w) as [[r w'] t] eqn:Hrun.
    apply tWinMain_run in Hrun. unfold trace. simpl.
    eapply main_run_Forall; eauto; simpl; auto. }
  split; [exact Hall|].
  eapply chain_frame; [exact Hframe | apply chained_tWinMain | exact Hall].
Qed.

(** *** C3 *)

(** Whenever [CreateProcess] is called, [find_winsync] has returned the path
    the command line and the working directory are made from. *)
Lemma command_line_spawned (os : OS) (fuel : nat) (lpCmdLine : string)
    (nCmdShow : Z) (w : world os) :
  forall e,
    In e (trace (_tWinMain os fuel lpCmdLine nCmdShow w)) ->
    is_CreateProcess e ->
    exists path,
      outcome (find_winsync os fuel w) = Returned path /\ spawns_from path e.
Proof.
  destruct (_tWinMain os fuel lpCmdLine nCmdShow w) as [[r w'] t] eqn:Hrun.
  destruct (find_winsync os fuel w) as [[rf w1] tf] eqn:Hfind.
  pose proof (tWinMain_launch _ _ _ _ _ _ _ _ _ _ _ Hrun Hfind) as Hl.
  apply find_winsync_run in Hfind. unfold trace, outcome. simpl.
  assert (Hno : Forall (fun e => ~ is_CreateProcess e) tf)
    by (eapply find_run_Forall; eauto; simpl; auto).
  rewrite Forall_forall in Hno.
  intros e Hin Hcp.
  destruct rf as [path| | |];
    try (destruct Hl as [-> _]; elim (Hno e Hin Hcp)).
  destruct Hl as (tl & -> & Hlaunch).
  apply in_app_or in Hin. destruct Hin as [Hin | Hin];
    [elim (Hno e Hin Hcp)|].
  exists path. split; [reflexivity|].
  assert (Hall : Forall (spawns_from path) tl).
  { eapply launch_run_Forall; eauto; simpl; auto.
    intros ok pi. unfold command_line. rewrite append_assoc. auto. }
  rewrite Forall_forall in Hall. auto.
Qed.

(** C3.  The arguments of the launcher play no part in a run.  Whenever
    [CreateProcess] is called, [find_winsync] has returned a path, the
    command line is that path directly followed by python.exe and then by
    the argument " -m winsync.run", and the working directory is that same
    path.  Conversely, when [find_winsync] returns a path and the command
    line fits in its buffer, [CreateProcess] is called with them. *)
Theorem command_line_of_install_path (os : OS) (fuel : nat)
    (lpCmdLine lpCmdLine' : string) (nCmdShow nCmdShow' : Z) (w : world os) :
  let found := find_winsync os fuel w in
  let run := _tWinMain os fuel lpCmdLine nCmdShow w in
  _tWinMain os fuel lpCmdLine' nCmdShow' w = run /\
  (forall e, In e (trace run) -> is_CreateProcess e ->
     exists path, outcome found = Returned path /\ spawns_from path e) /\
  (forall path, outcome found = Returned path -> fits (command_line path) ->
     exists ok pi, In (spawn path ok pi) (trace run)).
Proof.
  intros found run. split; [reflexivity|].
  split; [apply command_line_spawned|]. subst found run.
  destruct (_tWinMain os fuel lpCmdLine nCmdShow w) as [[r w'] t] eqn:Hrun.
  destruct (find_winsync os fuel w) as [[rf w1] tf] eqn:Hfind.
  pose proof (tWinMain_launch _ _ _ _ _ _ _ _ _ _ _ Hrun Hfind) as Hl.
  unfold trace, outcome. simpl.
  intros path Hret Hfits. subst rf.
  destruct Hl as (tl & -> & Hlaunch).
  destruct Hlaunch; try contradiction;
    eexists _, _; apply in_or_app; right; left; reflexivity.
Qed.

(** *** C6 *)

Lemma wait_passes_documented (wr : DWORD) :
  wait_passes wr -> wait_documented wr -> wr = WAIT_OBJECT_0.
Proof.
  intros (H1 & H2 & H3) [H | [H | [H | H]]]; congruence.
Qed.

Lemma reported_no_close f c te :
  reported f c te -> Forall (fun e => ~ is_CloseHandle e) te.
Proof.
  intros H. eapply reported_Forall; eauto; simpl; auto.
Qed.

(** C6.  A run of the launcher is the run of [find_winsync], in which no
    call concerns a child process, followed, when a path was returned, by
    at most: one [CreateProcess] with the command line built from that
    path; then one [WaitForSingleObject] on the process handle obtained,
    with the timeout INFINITE; then, when the wait returned WAIT_OBJECT_0,
    the closing of the process handle and of the thread handle.  On
    WAIT_ABANDONED, WAIT_TIMEOUT or WAIT_FAILED the error is reported and the
    process exits, and no handle is closed.  The wait is taken to answer
    one of its four documented values. *)
Theorem one_sequential_flow (os : OS) (fuel : nat) (lpCmdLine : string)
    (nCmdShow : Z) (w : world os) :
  (forall h ms w0,
     wait_documented (fst (sys_WaitForSingleObject os h ms w0))) ->
  let found := find_winsync os fuel w in
  let run := _tWinMain os fuel lpCmdLine nCmdShow w in
  exists tl,
    trace run = trace found ++ tl /\
    Forall (fun e => ~ process_call e) (trace found) /\
    match outcome found with
    | Returned path =>
        (tl = [] /\ outcome run = Crashed /\ ~ fits (command_line path)) \/
        (exists pi e te,
           tl = spawn path false pi :: EvGetLastError e :: te /\
           reported "CreateProcess" e te /\ outcome run = Exited e) \/
        (exists pi wr tc,
           tl = spawn path true pi
                :: EvWaitForSingleObject (hProcess pi) INFINITE wr :: tc /\
           (wr = WAIT_OBJECT_0 /\ closes pi (outcome run) tc \/
            wr <> WAIT_OBJECT_0 /\ wait_error wr (outcome run) tc /\
            Forall (fun e => ~ is_CloseHandle e) tc))
    | _ => tl = [] /\ stopped (outcome found) = Some (outcome run)
    end.
Proof.
  intros Hdoc found run.
  assert (Hwaits : Forall wait_entry_documented (trace run)).
  { eapply chain_Forall; [|apply chained_tWinMain].
    intros w0 [] w1 Hans; simpl; auto.
    simpl in Hans. specialize (Hdoc hHandle dwMilliseconds w0).
    rewrite Hans in Hdoc. exact Hdoc. }
  subst found run.
  destruct (_tWinMain os fuel lpCmdLine nCmdShow w) as [[r w'] t] eqn:Hrun.
  destruct (find_winsync os fuel w) as [[rf w1] tf] eqn:Hfind.
  pose proof (tWinMain_launch _ _ _ _ _ _ _ _ _ _ _ Hrun Hfind) as Hl.
  apply find_winsync_run in Hfind. unfold trace, outcome in *. simpl in *.
  assert (Hno : Forall (fun e => ~ process_call e) tf)
    by (eapply find_run_Forall; eauto; simpl; auto).
  destruct rf as [path| | |];
    try (destruct Hl as [-> Hs]; exists []; rewrite app_nil_r; now auto).
  destruct Hl as (tl & -> & Hlaunch). exists tl.
  split; [reflexivity|]. split; [exact Hno|].
  apply Forall_app in Hwaits. destruct Hwaits as [_ Hwaits].
  destruct Hlaunch as
    [Hfit | pi e te Hfit Hrep | pi Hfit | pi Hfit | pi e te Hfit Hrep
    | pi wr e te Hfit Hpass Hrep | pi wr e te Hfit Hpass Hrep
    | pi wr Hfit Hpass].
  - left. auto.
  - right. left. exists pi, e, te. auto.
  - right. right. eexists pi, _, _. split; [reflexivity|]. right.
    split; [discriminate|]. split; [left; auto|].
    apply announced_Forall; simpl; auto.
  - right. right. eexists pi, _, _. split; [reflexivity|]. right.
    split; [discriminate|]. split; [right; left; auto|].
    apply announced_Forall; simpl; auto.
  - right. right. eexists pi, _, _. split; [reflexivity|]. right.
    split; [discriminate|].
    split; [right; right; split; [reflexivity|]; exists e, te; auto|].
    constructor; [simpl; auto | eapply reported_no_close; eauto].
  - right. right. exists pi, wr, (EvCloseHandle (hProcess pi) false
                                   :: EvGetLastError e :: te).
    split; [reflexivity|]. left.
    inversion Hwaits as [|? ? _ Hrest]; subst.
    inversion Hrest as [|? ? Hw _]; subst. simpl in Hw.
    split; [apply wait_passes_documented; assumption|].
    right. left. eauto.
  - right. right. exists pi, wr, (EvCloseHandle (hProcess pi) true
                                   :: EvCloseHandle (hThread pi) false
                                   :: EvGetLastError e :: te).
    split; [reflexivity|]. left.
    inversion Hwaits as [|? ? _ Hrest]; subst.
    inversion Hrest as [|? ? Hw _]; subst. simpl in Hw.
    split; [apply wait_passes_documented; assumption|].
    right. right. eauto.
  - right. right. exists pi, wr, [EvCloseHandle (hProcess pi) true;
                                  EvCloseHandle (hThread pi) true].
    split; [reflexivity|]. left.
    inversion Hwaits as [|? ? _ Hrest]; subst.
    inversion Hrest as [|? ? Hw _]; subst. simpl in Hw.
    split; [apply wait_passes_documented; assumption|].
    left. auto.
Qed.

(** *** C5 *)

Lemma explained_here t code : exit_cause t code -> exit_explained t code.
Proof. intros H. exists [], t. auto. Qed.

Lemma explained_cons e t code :
  exit_explained t code -> exit_explained (e :: t) code.
Proof.
  intros (pre & tail & -> & H). exists (e :: pre), tail. auto.
Qed.

Lemma explained_app t0 t code :
  exit_explained t code -> exit_explained (t0 ++ t) code.
Proof.
  intros (pre & tail & -> & H). exists (t0 ++ pre), tail.
  now rewrite app_assoc.
Qed.

Lemma error_code_of_value h s fl ps r data cb :
  r <> ERROR_SUCCESS ->
  error_code_of (EvRegGetValue h s fl ps r data cb) = Some r.
Proof.
  intros H. simpl. apply Z.eqb_neq in H. now rewrite H.
Qed.

Lemma error_code_of_enum h i cch r k cch' :
  r <> ERROR_SUCCESS -> r <> ERROR_NO_MORE_ITEMS ->
  error_code_of (EvRegEnumKeyEx h i cch r k cch') = Some r.
Proof.
  intros H1 H2. simpl. apply Z.eqb_neq in H1, H2. now rewrite H1, H2.
Qed.

Lemma error_code_of_open h s o sam r h' :
  r <> ERROR_SUCCESS ->
  error_code_of (EvRegOpenKeyEx h s o sam r h') = Some r.
Proof.
  intros H. simpl. apply Z.eqb_neq in H. now rewrite H.
Qed.

Lemma token_run_exit root k ps toks r t :
  token_run root k ps toks r t ->
  forall code, r = Exited code -> exit_explained t code.
Proof.
  induction 1; intros code Hr; try discriminate.
  - apply explained_cons. auto.
  - inversion Hr; subst. apply explained_cons, explained_here.
    eapply ec_status; [apply error_code_of_value|]; eassumption.
Qed.

Lemma scan_run_exit root i ps res t :
  scan_run root i ps res t ->
  forall code, res = Exited code -> exit_explained t code.
Proof.
  induction 1; intros code Hr; try discriminate.
  - inversion Hr; subst. apply explained_here, ec_not_found.
  - inversion Hr; subst. apply explained_here.
    eapply ec_status; [apply error_code_of_enum|]; eassumption.
  - inversion Hr; subst. apply explained_cons, explained_here.
    eapply ec_status; [apply error_code_of_value|]; eassumption.
  - do 2 apply explained_cons. auto.
  - do 2 apply explained_cons. apply explained_app. auto.
  - subst res. do 2 apply explained_cons.
    destruct r as [[path|]| | |]; try discriminate.
    simpl in H1. inversion H1; subst.
    eapply token_run_exit; eauto.
Qed.

Lemma find_run_exit res t :
  find_run res t -> forall code, res = Exited code -> exit_explained t code.
Proof.
  destruct 1; intros code Hr.
  - apply explained_cons. eapply scan_run_exit; eauto.
  - do 2 apply explained_cons. eapply scan_run_exit; eauto.
  - inversion Hr; subst. apply explained_cons, explained_here.
    eapply ec_status; [apply error_code_of_open|]; eassumption.
Qed.



(** *** C2 *)

Lemma ends_with_append (suffix k : string) :
  ends_with suffix (k ++ suffix) = true.
Proof.
  induction k as [|c k IH]; simpl.
  - destruct suffix; simpl; rewrite ?Ascii.eqb_refl, ?String.eqb_refl;
      reflexivity.
  - rewrite IH. apply orb_true_r.
Qed.

Lemma handled_harmless e oc t :
  harmless e -> handled oc t -> handled oc (e :: t).
Proof.
  intros He Ht. split; [|exact Ht]. intros Hf Hn. elim (He Hf Hn).
Qed.

Lemma handled_app oc t1 t2 :
  Forall harmless t1 -> handled oc t2 -> handled oc (t1 ++ t2).
Proof.
  induction 1; simpl; intros H2; [exact H2|].
  apply handled_harmless; auto.
Qed.

Lemma handled_none t : handled None t -> Forall harmless t.
Proof.
  induction t as [|e t IH]; intros H; constructor.
  - intros Hf Hn. destruct H as [H _].
    destruct (H Hf Hn) as (code & Hc & _). discriminate.
  - apply IH. apply H.
Qed.

Lemma handled_split oc pre e post :
  handled oc (pre ++ e :: post) -> call_failed e -> ~ tolerated e ->
  exists code, oc = Some code /\ ends_in_report post code.
Proof.
  induction pre as [|x pre IH]; simpl; intros [H Hrest]; auto.
Qed.

Lemma handled_reported oc f c te : reported f c te -> handled oc te.
Proof.
  intros (msg & ->). simpl. repeat split; intros [].
Qed.

Lemma handled_announced oc msg : handled oc (announced msg).
Proof.
  simpl. repeat split; intros [].
Qed.

Lemma reported_ends f c te : reported f c te -> ends_in_report te c.
Proof.
  intros (msg & ->). eexists _, _. left. reflexivity.
Qed.

Lemma reported_after_last_error f c te :
  reported f c te -> ends_in_report (EvGetLastError c :: te) c.
Proof.
  intros (msg & ->). eexists _, _. right. reflexivity.
Qed.

Lemma announced_ends msg : ends_in_report (announced msg) 255.
Proof.
  eexists _, _. left. reflexivity.
Qed.

Lemma harmless_succeeded e : (call_failed e -> False) -> harmless e.
Proof. intros H Hf _. exact (H Hf). Qed.

Lemma harmless_tolerated e : tolerated e -> harmless e.
Proof. intros H _ Hn. exact (Hn H). Qed.

(** A failure that ends the process, with what follows it. *)
Lemma handled_fatal e c te :
  ends_in_report te c -> handled (Some c) te -> handled (Some c) (e :: te).
Proof.
  intros He Ht. split; [|exact Ht]. intros _ _. exists c. auto.
Qed.

Lemma token_run_handled root k ps toks r t :
  token_run root k ps toks r t -> handled (exit_code r) t.
Proof.
  induction 1; simpl exit_code.
  - exact I.
  - exact I.
  - apply handled_harmless; [apply harmless_tolerated; exact I | assumption].
  - apply handled_harmless; [|exact I].
    apply harmless_succeeded. simpl. assumption.
  - apply handled_harmless;
      [apply harmless_succeeded; simpl; assumption|].
    apply handled_fatal;
      [eapply reported_ends | eapply handled_reported]; eassumption.
  - apply handled_harmless;
      [apply harmless_succeeded; simpl; assumption|].
    apply handled_harmless; [|exact I].
    apply harmless_succeeded. simpl. auto.
Qed.

Lemma harmless_enum_ok root i cch k cch' :
  harmless (EvRegEnumKeyEx root i cch ERROR_SUCCESS k cch').
Proof. apply harmless_succeeded. simpl. auto. Qed.

Lemma harmless_value_ok root s fl ps data cb :
  harmless (EvRegGetValue root s fl ps ERROR_SUCCESS data cb).
Proof. apply harmless_succeeded. simpl. auto. Qed.

Lemma harmless_skipped root k fl ps data cb :
  harmless (EvRegGetValue root (k ++ "\PythonPath") fl ps 2 data cb).
Proof.
  apply harmless_tolerated. simpl. split; [reflexivity|].
  apply ends_with_append.
Qed.

Lemma scan_run_handled root i ps res t :
  scan_run root i ps res t -> handled (exit_code res) t.
Proof.
  induction 1; simpl exit_code.
  - apply handled_fatal; [apply announced_ends | apply handled_announced].
  - apply handled_fatal;
      [eapply reported_ends | eapply handled_reported]; eassumption.
  - apply handled_harmless; [apply harmless_enum_ok | exact I].
  - apply handled_harmless; [apply harmless_enum_ok | exact I].
  - apply handled_harmless; [apply harmless_enum_ok|].
    apply handled_fatal;
      [eapply reported_ends | eapply handled_reported]; eassumption.
  - apply handled_harmless; [apply harmless_enum_ok|].
    apply handled_harmless; [apply harmless_skipped | assumption].
  - apply handled_harmless; [apply harmless_enum_ok|].
    apply handled_harmless; [apply harmless_value_ok|].
    apply handled_app; [|assumption].
    apply handled_none. eapply token_run_handled in H0. exact H0.
  - apply handled_harmless; [apply harmless_enum_ok|].
    apply handled_harmless; [apply harmless_value_ok|].
    apply token_run_handled in H0.
    destruct r as [[path|]| | |]; simpl in H1; inversion H1; subst;
      exact H0.
Qed.

Lemma harmless_first_open r h :
  harmless (EvRegOpenKeyEx HKEY_LOCAL_MACHINE (keys 0) 0 read_rights r h).
Proof. apply harmless_tolerated. reflexivity. Qed.

Lemma harmless_open_ok s h :
  harmless (EvRegOpenKeyEx HKEY_LOCAL_MACHINE s 0 read_rights ERROR_SUCCESS h).
Proof. apply harmless_succeeded. simpl. auto. Qed.

Lemma find_run_handled res t : find_run res t -> handled (exit_code res) t.
Proof.
  destruct 1.
  - apply handled_harmless; [apply harmless_first_open|].
    eapply scan_run_handled; eassumption.
  - apply handled_harmless; [apply harmless_first_open|].
    apply handled_harmless; [apply harmless_open_ok|].
    eapply scan_run_handled; eassumption.
  - apply handled_harmless; [apply harmless_first_open|].
    apply handled_fatal;
      [eapply reported_ends | eapply handled_reported]; eassumption.
Qed.

Lemma handled_last_error f c te :
  reported f c te -> handled (Some c) (EvGetLastError c :: te).
Proof.
  intros H. apply handled_harmless;
    [apply harmless_succeeded; intros [] | eapply handled_reported; eauto].
Qed.

Lemma harmless_spawned path pi : harmless (spawn path true pi).
Proof. apply harmless_succeeded. simpl. discriminate. Qed.

Lemma harmless_wait h ms wr :
  wr <> WAIT_FAILED -> harmless (EvWaitForSingleObject h ms wr).
Proof. intros H. apply harmless_succeeded. simpl. exact H. Qed.

Lemma harmless_closed h : harmless (EvCloseHandle h true).
Proof. apply harmless_succeeded. simpl. discriminate. Qed.

Lemma launch_run_handled path r t :
  launch_run path r t -> handled (exit_code r) t.
Proof.
  destruct 1; simpl exit_code;
    repeat first
      [ exact I
      | apply handled_harmless;
          [first [ apply harmless_spawned
                 | apply harmless_closed
                 | apply harmless_wait;
                     first [discriminate
                           | match goal with
                             | Hp : wait_passes _ |- _ => apply Hp
                             end] ]|]
      | apply handled_announced
      | apply handled_fatal;
          [eapply reported_after_last_error; eassumption
          |eapply handled_last_error; eassumption] ].
Qed.

Lemma main_run_handled r t : main_run r t -> handled (exit_code r) t.
Proof.
  destruct 1 as [rf r' t Hfind Hs | path t r' t' Hfind Hl].
  - apply find_run_handled in Hfind.
    destruct rf; simpl in Hs; inversion Hs; subst; exact Hfind.
  - apply handled_app; [|eapply launch_run_handled; eassumption].
    apply handled_none. apply find_run_handled in Hfind. exact Hfind.
Qed.

(** C2, as the code has it.  A failed call is followed by the message box
    and the exit, and by nothing else, unless it is one of the three the
    program goes on after: the opening of SOFTWARE\Python\PythonCore (the
    Wow6432Node key is tried next), a read of a PythonPath value that
    answers 2 (the subkey is skipped) and a [GetFileAttributes] that finds
    nothing (the next token is probed).  So the openings of the second key,
    the enumerations, the other reads, [CreateProcess], a failed wait and
    [CloseHandle] never fail without ending the process. *)
Theorem failures_are_terminal_unless_tolerated (os : OS) (fuel : nat)
    (lpCmdLine : string) (nCmdShow : Z) (w : world os) :
  let run := _tWinMain os fuel lpCmdLine nCmdShow w in
  forall pre e post,
    trace run = pre ++ e :: post ->
    call_failed e -> ~ tolerated e ->
    exists code, outcome run = Exited code /\ ends_in_report post code.
Proof.
  intros run pre e post Ht Hf Hn. subst run.
  destruct (_tWinMain os fuel lpCmdLine nCmdShow w) as [[r w'] t] eqn:Hrun.
  apply tWinMain_run, main_run_handled in Hrun.
  unfold trace, outcome in *. simpl in *. subst t.
  destruct (handled_split _ _ _ _ Hrun Hf Hn) as (code & Hc & He).
  exists code. split; [|exact He].
  destruct r; simpl in Hc; inversion Hc; reflexivity.
Qed.

(** *** The linear scan *)

Lemma PythonPath_is_not_InstallPath (k k' : string) :
  (k ++ "\PythonPath")%string <> (k' ++ "\InstallPath")%string.
Proof.
  revert k'. induction k as [|c k IH]; intros k' H.
  - apply (f_equal String.length) in H. rewrite !length_append in H.
    simpl in H. lia.
  - destruct k' as [|c' k'].
    + destruct k as [|c0 k]; simpl in H; [discriminate|].
      apply (f_equal String.length) in H.
      change (S (S (String.length (k ++ "\PythonPath"))) = 12%nat) in H.
      rewrite length_append in H. simpl in H. lia.
    + simpl in H. inversion H. eapply IH. eassumption.
Qed.

Lemma last_app_nonempty {A : Type} (l t : list A) (d : A) :
  t <> [] -> last (l ++ t) d = last t d.
Proof.
  intros Ht. induction l as [|x l IH]; simpl; [reflexivity|].
  destruct (l ++ t) eqn:E; [|exact IH].
  apply app_eq_nil in E. destruct E as [_ E]. contradiction.
Qed.

Lemma last_cons_nonempty {A : Type} (x : A) (t : list A) (d : A) :
  t <> [] -> last (x :: t) d = last t d.
Proof.
  intros Ht. destruct t; [contradiction | reflexivity].
Qed.

Lemma token_run_missed root k ps toks t :
  token_run root k ps toks (Returned None) t -> t = map probe_missed toks.
Proof.
  intros H. remember (Returned None) as r eqn:Hr.
  induction H; try discriminate; simpl.
  - reflexivity.
  - f_equal. auto.
Qed.

Lemma token_run_found root k ps toks path t :
  token_run root k ps toks (Returned (Some path)) t ->
  exists before tok after attrs cb,
    toks = before ++ tok :: after /\
    attrs <> INVALID_FILE_ATTRIBUTES /\
    t = map probe_missed before
        ++ [probe tok attrs;
            EvRegGetValue root (k ++ "\InstallPath") RRF_RT_REG_SZ ps
              ERROR_SUCCESS path cb].
Proof.
  intros H. remember (Returned (Some path)) as r eqn:Hr.
  induction H; try discriminate.
  - destruct (IHtoken_run Hr) as (before & tok' & after & attrs & cb
                                  & -> & Ha & ->).
    exists (tok :: before), tok', after, attrs, cb. auto.
  - inversion Hr; subst.
    exists [], tok, rest, attrs, cb. auto.
Qed.

Lemma scan_run_found root i ps path t :
  scan_run root i ps (Returned path) t -> found_by_scan root path i t.
Proof.
  intros H. remember (Returned path) as res eqn:Hr.
  induction H; try discriminate.
  - apply fbs_skipped. auto.
  - apply token_run_missed in H0. subst tt. apply fbs_missed. auto.
  - subst res. destruct r as [[p|]| | |]; simpl in H1; inversion H1; subst.
    apply token_run_found in H0.
    destruct H0 as (before & tok & after & attrs & cb' & Ht & Ha & ->).
    eapply fbs_here; eassumption.
Qed.

Lemma token_run_last root k ps toks r t :
  token_run root k ps toks r t ->
  forall h s fl ps' d cb,
    last t no_entry = EvRegGetValue h s fl ps' ERROR_SUCCESS d cb ->
    r = Returned (Some d).
Proof.
  induction 1; intros h s fl ps' d cb' Hl; try discriminate.
  - destruct t as [|x t]; [discriminate|].
    eapply IHtoken_run. erewrite <- last_cons_nonempty; [exact Hl|].
    discriminate.
  - destruct H3 as (msg & ->). discriminate.
  - simpl in Hl. inversion Hl; subst. reflexivity.
Qed.

Lemma scan_run_nonempty root i ps res t : scan_run root i ps res t -> t <> [].
Proof. destruct 1; discriminate. Qed.

Lemma scan_run_last root i ps res t :
  scan_run root i ps res t ->
  forall h k fl ps' d cb,
    last t no_entry =
      EvRegGetValue h (k ++ "\InstallPath") fl ps' ERROR_SUCCESS d cb ->
    res = Returned d.
Proof.
  induction 1; intros h k' fl ps' d cb' Hl; try discriminate.
  - destruct H1 as (msg & ->). discriminate.
  - destruct H2 as (msg & ->). discriminate.
  - eapply IHscan_run.
    rewrite <- Hl. symmetry.
    apply (last_app_nonempty [_; _]).
    eapply scan_run_nonempty; eassumption.
  - eapply IHscan_run.
    rewrite <- Hl. symmetry.
    apply (last_app_nonempty (_ :: _ :: tt)).
    eapply scan_run_nonempty; eassumption.
  - destruct tt as [|x tt].
    + simpl in Hl. inversion Hl.
      exfalso. eapply PythonPath_is_not_InstallPath. eassumption.
    + do 2 rewrite last_cons_nonempty in Hl by discriminate.
      eapply token_run_last in Hl; [|eassumption].
      subst r. simpl in H1. inversion H1. reflexivity.
Qed.

Lemma find_run_last res t :
  find_run res t ->
  forall h k fl ps d cb,
    last t no_entry =
      EvRegGetValue h (k ++ "\InstallPath") fl ps ERROR_SUCCESS d cb ->
    res = Returned d.
Proof.
  destruct 1; intros h k fl ps d cb Hl.
  - rewrite last_cons_nonempty in Hl
      by (eapply scan_run_nonempty; eassumption).
    eapply scan_run_last; eassumption.
  - do 2 rewrite last_cons_nonempty in Hl
      by (first [discriminate | eapply scan_run_nonempty; eassumption]).
    eapply scan_run_last; eassumption.
  - destruct H1 as (msg & ->). discriminate.
Qed.

Lemma found_by_scan_last root path i t :
  found_by_scan root path i t ->
  exists k ps cb,
    last t no_entry =
      EvRegGetValue root (k ++ "\InstallPath") RRF_RT_REG_SZ ps
        ERROR_SUCCESS path cb /\
    t <> [].
Proof.
  induction 1.
  - exists k, cb, cb'. split; [|discriminate].
    do 2 rewrite last_cons_nonempty
      by (first [discriminate
                | intros E; apply app_eq_nil in E; destruct E; discriminate]).
    rewrite last_app_nonempty by discriminate.
    reflexivity.
  - destruct IHfound_by_scan as (k' & ps' & cb' & Hl & Hne).
    exists k', ps', cb'. split; [|discriminate].
    do 2 rewrite last_cons_nonempty by first [discriminate | exact Hne].
    exact Hl.
  - destruct IHfound_by_scan as (k' & ps' & cb' & Hl & Hne).
    exists k', ps', cb'. split; [|discriminate].
    do 2 rewrite last_cons_nonempty
      by (first [discriminate
                | intros E; apply app_eq_nil in E; destruct E; contradiction]).
    rewrite last_app_nonempty by exact Hne.
    exact Hl.
Qed.

(** The runs of [find_winsync] that return.  [find_winsync] has returned
    [path] exactly when its calls were these, in this order: the opening
    of the PythonCore key; then, for the subkeys number 0, 1, 2, ... of that
    key as [RegEnumKeyEx] gives them, the read of the default value of the
    PythonPath subkey, a subkey whose read answers 2 being passed over, and
    for a value read, the probe with [GetFileAttributes] of each of its
    tokens between semicolons followed by \site-packages\winsync, in order;
    the scan stopped at the first probe that found the path, and [path] is
    the default value then read, with success, from the InstallPath subkey
    of the subkey being visited.  This says nothing of the runs in which
    that last read fails. *)
Lemma returns_after_linear_scan (os : OS) (fuel : nat) (w : world os)
    (path : string) :
  let found := find_winsync os fuel w in
  outcome found = Returned path <->
  exists opening root scan,
    trace found = opening ++ scan /\
    opened root opening /\
    found_by_scan root path 0 scan.
Proof.
  intros found. subst found.
  destruct (find_winsync os fuel w) as [[res w'] t] eqn:Hrun.
  apply find_winsync_run in Hrun. unfold outcome, trace. simpl.
  split.
  - intros ->. inversion Hrun; subst.
    + eexists [_], root, _. split; [reflexivity|].
      split; [left; reflexivity|]. eapply scan_run_found. eassumption.
    + eexists [_; _], root, _. split; [reflexivity|].
      split; [right; eauto|]. eapply scan_run_found. eassumption.
  - intros (opening & root & scan & -> & _ & Hscan).
    apply found_by_scan_last in Hscan.
    destruct Hscan as (k & ps & cb & Hl & Hne).
    eapply find_run_last; [exact Hrun|].
    rewrite last_app_nonempty by exact Hne. exact Hl.
Qed.

(** *** C8 *)

Lemma bounded_copy (s : string) :
  match tcscpy_s MAX_PATH s with
  | Some r => r = s /\ fits r
  | None => ~ fits s
  end.
Proof.
  unfold tcscpy_s, fits.
  destruct (tlen s + 1 <=? MAX_PATH) eqn:H;
    [apply Z.leb_le in H | apply Z.leb_gt in H]; [auto | lia].
Qed.

Lemma bounded_concat (d s : string) :
  match tcscat_s d MAX_PATH s with
  | Some r => r = (d ++ s)%string /\ fits r
  | None => ~ fits (d ++ s)
  end.
Proof.
  unfold tcscat_s, fits.
  destruct (tlen d + tlen s + 1 <=? MAX_PATH) eqn:H;
    [apply Z.leb_le in H | apply Z.leb_gt in H];
    rewrite ?tlen_append; [split; [reflexivity | lia] | lia].
Qed.

Ltac split_Forall :=
  repeat match goal with
         | H : Forall _ (_ :: _) |- _ => inversion H; clear H; subst
         | H : Forall _ (_ ++ _) |- _ => apply Forall_app in H; destruct H
         end.

Lemma reported_within f c te : reported f c te -> Forall within_buffers te.
Proof.
  intros H. eapply reported_Forall; eauto; simpl; auto.
Qed.

Ltac within_buffers_steps :=
  repeat match goal with
         | |- Forall _ (_ :: _) => apply Forall_cons; [simpl|]
         | |- Forall _ (_ ++ _) => apply Forall_app; split
         | |- Forall _ [] => constructor
         | |- Forall within_buffers (announced _) =>
             apply announced_Forall; exact I
         | |- Forall within_buffers _ =>
             first [ eapply reported_within; eassumption
                   | match goal with
                     | IH : _ -> _ -> Forall within_buffers ?t
                       |- Forall within_buffers ?t => apply IH
                     end ]
         | |- _ /\ _ => split
         | |- fits _ => assumption
         | |- MAX_PATH = MAX_PATH => reflexivity
         | |- _ <= MAX_PATH => assumption
         | |- Forall capacity_respected _ => assumption
         | |- _ = ERROR_SUCCESS -> _ => intros ?E
         end.

Lemma token_run_within root k ps toks r t :
  token_run root k ps toks r t ->
  ps <= MAX_PATH ->
  Forall capacity_respected t -> Forall within_buffers t.
Proof.
  induction 1; intros Hps Hcap; split_Forall; simpl in *;
    within_buffers_steps;
    repeat match goal with H : _ /\ _ |- _ => destruct H end;
    try contradiction;
    unfold fits, ERROR_SUCCESS in *;
    try match goal with
        | H : ?a = ?a -> _ |- _ => specialize (H eq_refl)
        end;
    lia.
Qed.

Lemma scan_run_within root i ps res t :
  scan_run root i ps res t ->
  ps <= MAX_PATH ->
  Forall capacity_respected t -> Forall within_buffers t.
Proof.
  induction 1; intros Hps Hcap; split_Forall; simpl in *;
    repeat match goal with H : _ /\ _ |- _ => destruct H end;
    within_buffers_steps;
    try (eapply token_run_within; [eassumption| |assumption]);
    unfold fits, ERROR_SUCCESS, ERROR_NO_MORE_ITEMS in *;
    repeat match goal with
           | H : ?a = ?a -> _ |- _ => specialize (H eq_refl)
           end;
    repeat match goal with H : _ /\ _ |- _ => destruct H end;
    try congruence; try lia.
Qed.

Lemma find_run_within res t :
  find_run res t ->
  Forall capacity_respected t -> Forall within_buffers t.
Proof.
  destruct 1; intros Hcap; split_Forall;
    repeat (apply Forall_cons; [exact I|]);
    first [ eapply scan_run_within; [eassumption | apply Z.le_refl | assumption]
          | eapply reported_within; eassumption ].
Qed.

Lemma fits_command_line path : fits (command_line path) -> fits path.
Proof.
  unfold fits, command_line. rewrite !tlen_append.
  pose proof (tlen_nonneg "python.exe").
  pose proof (tlen_nonneg " -m winsync.run"). lia.
Qed.

Lemma launch_run_within path r t :
  launch_run path r t -> Forall within_buffers t.
Proof.
  intros H.
  assert (Hs : fits (command_line path) ->
               forall ok pi, within_buffers (spawn path ok pi))
    by (intros Hf ok pi; split; [exact Hf | apply fits_command_line, Hf]).
  destruct H; repeat (apply Forall_cons; [first [exact I | now apply Hs]|]);
    first [ constructor
          | apply announced_Forall; exact I
          | eapply reported_within; eassumption ].
Qed.

(** C8.  The bounded copy and the bounded concatenation, called with the
    capacity [MAX_PATH], yield a string only when it fits in [MAX_PATH]
    elements with its terminator, and reject it otherwise.  In a run, every
    string the program builds and passes on (the subkey paths, the probed
    paths, the command line, the working directory) fits; every enumeration
    offers the operating system exactly [MAX_PATH] characters and every read
    of a value at most [MAX_PATH] bytes; so, the operating system keeping
    within the capacity it is offered, every subkey name and every value
    read fits as well. *)
Theorem writes_stay_within_MAX_PATH (os : OS) (fuel : nat)
    (lpCmdLine : string) (nCmdShow : Z) (w : world os) :
  (forall w0 e w1, answers os w0 e w1 -> capacity_respected e) ->
  let run := _tWinMain os fuel lpCmdLine nCmdShow w in
  Forall within_buffers (trace run) /\
  (forall s,
     match tcscpy_s MAX_PATH s with
     | Some r => r = s /\ fits r
     | None => ~ fits s
     end) /\
  (forall d s,
     match tcscat_s d MAX_PATH s with
     | Some r => r = (d ++ s)%string /\ fits r
     | None => ~ fits (d ++ s)
     end).
Proof.
  intros Hos run. split; [|split; [apply bounded_copy | apply bounded_concat]].
  assert (Hcap : Forall capacity_respected (trace run))
    by (eapply chain_Forall; [exact Hos | apply chained_tWinMain]).
  subst run.
  destruct (_tWinMain os fuel lpCmdLine nCmdShow w) as [[r w'] t] eqn:Hrun.
  apply tWinMain_run in Hrun. unfold trace in *. simpl in *.
  destruct Hrun as [rf r' t Hfind Hs | path t r' t' Hfind Hl].
  - eapply find_run_within; eassumption.
  - apply Forall_app in Hcap. destruct Hcap as [Hc1 Hc2].
    apply Forall_app. split.
    + eapply find_run_within; eassumption.
    + eapply launch_run_within; eassumption.
Qed.

(** *** C9 *)

Lemma sizes_threaded_app ps t1 t2 :
  Forall (fun e => ~ is_RegGetValue e) t1 ->
  sizes_threaded ps t2 -> sizes_threaded ps (t1 ++ t2).
Proof.
  induction 1 as [|e t1 He Ht IH]; intros H2; simpl; [exact H2|].
  destruct e; simpl in *; auto. elim He. exact I.
Qed.

Lemma sizes_threaded_reported ps f c te :
  reported f c te -> sizes_threaded ps te.
Proof. intros (msg & ->). exact I. Qed.

Lemma token_run_sizes root k ps toks r t :
  token_run root k ps toks r t -> sizes_threaded ps t.
Proof.
  induction 1; simpl; auto.
  split; [reflexivity|]. eapply sizes_threaded_reported; eassumption.
Qed.

Lemma scan_run_sizes root i ps res t :
  scan_run root i ps res t -> sizes_threaded ps t.
Proof.
  induction 1; simpl; auto.
  - eapply sizes_threaded_reported; eassumption.
  - split; [reflexivity|]. eapply sizes_threaded_reported; eassumption.
  - split; [reflexivity|]. apply sizes_threaded_app; [|assumption].
    apply token_run_missed in H0. subst tt.
    apply Forall_forall. intros e He. apply in_map_iff in He.
    destruct He as (tok & <- & _). simpl. auto.
  - split; [reflexivity|]. eapply token_run_sizes; eassumption.
Qed.

Lemma find_winsync_sizes (os : OS) (fuel : nat) (w : world os) :
  sizes_threaded MAX_PATH (trace (find_winsync os fuel w)).
Proof.
  destruct (find_winsync os fuel w) as [[res w'] t] eqn:Hrun.
  apply find_winsync_run in Hrun. unfold trace. simpl.
  destruct Hrun; simpl; eauto using scan_run_sizes.
  eapply sizes_threaded_reported; eassumption.
Qed.

(** C9, on the code.  The size variable is never set back: in every run
    the first read is offered [MAX_PATH] and each later read what the read
    before it wrote back.  On a machine with two interpreters, the first in
    C:\Py26 and the second, for which winsync is installed, in C:\Python27,
    the PythonPath read of the second is offered the 50 bytes of the value
    of the first, needs 112, fails with ERROR_MORE_DATA, and the process
    exits with that code instead of finding the install. *)
Theorem path_size_is_not_restored :
  (forall os fuel w, sizes_threaded MAX_PATH (trace (find_winsync os fuel w))) /\
  let run := Sample.locate 3 Sample.two_interpreters in
  trace run =
    [EvRegOpenKeyEx HKEY_LOCAL_MACHINE "SOFTWARE\Python\PythonCore" 0
       read_rights ERROR_SUCCESS Win.h_PythonCore;
     EvRegEnumKeyEx Win.h_PythonCore 0 MAX_PATH ERROR_SUCCESS "2.6" 3;
     EvRegGetValue Win.h_PythonCore "2.6\PythonPath" RRF_RT_REG_SZ MAX_PATH
       ERROR_SUCCESS "C:\Py26\Lib;C:\Py26\DLLs" 50;
     EvGetFileAttributes "C:\Py26\Lib\site-packages\winsync"
       INVALID_FILE_ATTRIBUTES;
     EvGetFileAttributes "C:\Py26\DLLs\site-packages\winsync"
       INVALID_FILE_ATTRIBUTES;
     EvRegEnumKeyEx Win.h_PythonCore 1 MAX_PATH ERROR_SUCCESS "2.7" 3;
     EvRegGetValue Win.h_PythonCore "2.7\PythonPath" RRF_RT_REG_SZ 50
       Win.ERROR_MORE_DATA EmptyString 112;
     EvMessageBox
       "RegGetValue failed with error 234: More data is available."
       "Error" box_style;
     EvExitProcess Win.ERROR_MORE_DATA] /\
  outcome run = Exited Win.ERROR_MORE_DATA.
Proof.
  split; [exact find_winsync_sizes|].
  split; vm_compute; reflexivity.
Qed.

(** *** C1 *)

(** C1, on the code.  One interpreter is registered, its PythonPath value
    is C:\P34\Lib and its InstallPath value C:\Python34\, and winsync is
    installed under C:\P34\Lib (a Unicode build).  The value of
    InstallPath can be read: offered [MAX_PATH] bytes, [RegGetValue]
    answers it with success.  The scan reaches the install: the first
    token of the first subkey is probed and the path is there.  But the
    read of InstallPath is offered the 22 bytes the read of PythonPath
    wrote back into the size variable, which is never set back; the value
    needs 26, the read fails with ERROR_MORE_DATA, and the process exits
    with that code instead of returning C:\Python34\. *)
Theorem first_install_is_not_returned :
  let m := Sample.short_python_path in
  let run := Sample.locate 2 m in
  fst (sys_RegGetValue Win.os Win.h_PythonCore "3.4\InstallPath"
         RRF_RT_REG_SZ MAX_PATH m)
  = (ERROR_SUCCESS, "C:\Python34\", 26) /\
  fst (sys_GetFileAttributes Win.os "C:\P34\Lib\site-packages\winsync" m)
  <> INVALID_FILE_ATTRIBUTES /\
  trace run =
    [EvRegOpenKeyEx HKEY_LOCAL_MACHINE "SOFTWARE\Python\PythonCore" 0
       read_rights ERROR_SUCCESS Win.h_PythonCore;
     EvRegEnumKeyEx Win.h_PythonCore 0 MAX_PATH ERROR_SUCCESS "3.4" 3;
     EvRegGetValue Win.h_PythonCore "3.4\PythonPath" RRF_RT_REG_SZ MAX_PATH
       ERROR_SUCCESS "C:\P34\Lib" 22;
     EvGetFileAttributes "C:\P34\Lib\site-packages\winsync"
       Win.FILE_ATTRIBUTE_DIRECTORY;
     EvRegGetValue Win.h_PythonCore "3.4\InstallPath" RRF_RT_REG_SZ 22
       Win.ERROR_MORE_DATA EmptyString 26;
     EvMessageBox
       "RegGetValue (installpath) failed with error 234: More data is available."
       "Error" box_style;
     EvExitProcess Win.ERROR_MORE_DATA] /\
  outcome run = Exited Win.ERROR_MORE_DATA /\
  (forall fuel path, outcome (Sample.locate fuel m) <> Returned path).
Proof.
  intros m run.
  split; [vm_compute; reflexivity|].
  split; [vm_compute; discriminate|].
  split; [vm_compute; reflexivity|].
  split; [vm_compute; reflexivity|].
  intros fuel path. subst m.
  destruct fuel as [|fuel]; vm_compute; discriminate.
Qed.

(** *** C10 *)

Lemma token_run_finished root k ps toks r t :
  token_run root k ps toks r t -> r <> Unfinished.
Proof. induction 1; auto; discriminate. Qed.

Lemma DWORD_incr_small (i n : Z) :
  0 <= i -> i < n -> n < 2 ^ 32 -> DWORD_incr i = i + 1.
Proof.
  intros. unfold DWORD_incr. apply Z.mod_small. lia.
Qed.

(** With as much fuel as there are subkeys, the enumeration loop comes to
    an end. *)
Lemma enum_loop_finishes (os : OS) (n : Z) (root : HKEY) (fuel : nat) :
  forall r k i ps cch w res w' t,
    enum_loop os fuel root r k (DWORD_incr i) ps w = (res, w', t) ->
    0 <= i -> n < 2 ^ 32 -> n - i <= Z.of_nat fuel ->
    Forall (enumeration_ends_by n)
      (EvRegEnumKeyEx root i MAX_PATH r k cch :: t) ->
    res <> Unfinished.
Proof.
  induction fuel as [|fuel IH];
    intros r k i ps cch w res w' t Hrun Hi Hn Hfuel Hall;
    simpl in Hrun;
    (destruct (r =? ERROR_SUCCESS) eqn:Hr;
     [apply Z.eqb_eq in Hr; subst r
     |destruct (r =? ERROR_NO_MORE_ITEMS);
      [destruct (msg_exit_run os (A:=string)
                   "Could not find a WinSync install" w) as (w1 & He)
      |destruct (error_code_exit_run os (A:=string) "RegEnumKeyEx" r w)
         as (w1 & te & He & _)];
      rewrite He in Hrun; inversion Hrun; discriminate]);
    assert (Hlt : i < n)
      by (inversion Hall as [|? ? Hhead _]; subst; simpl in Hhead;
          destruct (Z.le_gt_cases n i) as [Hle|]; [|lia];
          elim (Hhead Hle); reflexivity).
  - lia.
  - rewrite copy_then_cat in Hrun.
    destruct (tlen (k ++ "\PythonPath") + 1 <=? MAX_PATH);
      [|inversion Hrun; discriminate].
    rewrite bind_RegGetValue in Hrun.
    destruct (sys_RegGetValue os _ _ _ _ w) as [[[rv paths] cb] w1].
    assert (Hnext :
      forall w2 res2 w3 t2,
        bind os (RegEnumKeyEx os root (DWORD_incr i) MAX_PATH)
          (fun x : DWORD * string * DWORD =>
             let (p, _) := x in
             let (r0, keyname) := p in
             enum_loop os fuel root r0 keyname
               (DWORD_incr (DWORD_incr i)) cb) w2 = (res2, w3, t2) ->
        Forall (enumeration_ends_by n) t2 -> res2 <> Unfinished).
    { intros w2 res2 w3 t2 Hb Ht2. rewrite bind_RegEnumKeyEx in Hb.
      destruct (sys_RegEnumKeyEx os _ _ _ w2) as [[[r' k'] cch'] w4].
      destruct (enum_loop os fuel root r' k' _ cb w4)
        as [[res' w5] t'] eqn:Hloop.
      inversion Hb; subst.
      rewrite (DWORD_incr_small i n) in * by assumption.
      eapply IH; [exact Hloop | lia | exact Hn | lia | exact Ht2]. }
    inversion Hall as [|? ? _ Htail]; subst. clear Hall.
    destruct (rv =? ERROR_SUCCESS) eqn:Hrv;
      [|destruct (rv =? 2) eqn:Hrv2; cbn [negb] in Hrun].
    + pose proof (tokens_length ";" paths) as Hlen.
      rewrite (toks_of_tcstok paths) in Hlen.
      destruct (tcstok_s ";" paths) as [token ctx]. cbn [fst snd] in *.
      rewrite bind_assoc in Hrun. unfold bind at 1 in Hrun.
      destruct (token_loop os (String.length paths) root k token ctx cb w1)
        as [[rt w2] tt] eqn:Htok.
      apply token_loop_run in Htok; [|exact Hlen].
      apply token_run_finished in Htok.
      destruct rt as [[path|]| | |]; try contradiction.
      * rewrite !bind_ret in Hrun. unfold ret in Hrun.
        inversion Hrun; discriminate.
      * rewrite bind_ret in Hrun.
        match type of Hrun with
        | context [bind os (RegEnumKeyEx os ?a ?b ?c) ?K ?w0] =>
            destruct (bind os (RegEnumKeyEx os a b c) K w0)
              as [[res2 w3] t2] eqn:Hb
        end.
        inversion Hrun; subst.
        inversion Htail as [|? ? _ Htail']; subst.
        apply Forall_app in Htail'. destruct Htail' as [_ Ht2].
        eapply Hnext; eassumption.
      * inversion Hrun; discriminate.
      * inversion Hrun; discriminate.
    + rewrite bind_ret in Hrun.
      match type of Hrun with
      | context [bind os (RegEnumKeyEx os ?a ?b ?c) ?K ?w0] =>
          destruct (bind os (RegEnumKeyEx os a b c) K w0)
            as [[res2 w3] t2] eqn:Hb
      end.
      inversion Hrun; subst.
      inversion Htail as [|? ? _ Ht2]; subst.
      eapply Hnext; eassumption.
    + unfold bind at 1 in Hrun.
      destruct (error_code_exit_run os (A:=option string * DWORD)
                  "RegGetValue" rv w1) as (w2 & te & He & _).
      rewrite He in Hrun. inversion Hrun; discriminate.
Qed.

Lemma overlong_in_app t0 t : overlong_in t -> overlong_in (t0 ++ t).
Proof.
  intros (s & [[(h & i & cch & cch' & Hin) Hs]
              | [(h & k & fl & cb & data & cb' & Hin & Htok) Hs]]);
    exists s; [left | right]; (split; [|exact Hs]).
  - exists h, i, cch, cch'. apply in_or_app. auto.
  - exists h, k, fl, cb, data, cb'. split; [apply in_or_app; auto | exact Htok].
Qed.

Lemma overlong_in_cons e t : overlong_in t -> overlong_in (e :: t).
Proof. apply (overlong_in_app [e]). Qed.

Lemma token_run_crashed root k ps toks r t :
  token_run root k ps toks r t -> r = Crashed ->
  (exists tok, In tok toks /\ ~ fits (tok ++ "\site-packages\winsync")) \/
  ~ fits (k ++ "\InstallPath").
Proof.
  induction 1; intros Hr; try discriminate.
  - left. exists tok. simpl. auto.
  - destruct (IHtoken_run Hr) as [(tok' & Hin & Hs) | Hk]; [left | right; auto].
    exists tok'. simpl. auto.
  - right. assumption.
Qed.

Lemma scan_run_crashed root i ps res t :
  scan_run root i ps res t -> res = Crashed -> overlong_in t.
Proof.
  induction 1; intros Hr; try discriminate.
  - exists k. left. split; [|left; assumption].
    exists root, i, MAX_PATH, cch. left. reflexivity.
  - do 2 apply overlong_in_cons. auto.
  - do 2 apply overlong_in_cons. apply overlong_in_app. auto.
  - subst res. destruct r as [[path|]| | |]; try discriminate.
    destruct (token_run_crashed _ _ _ _ _ _ H0 eq_refl)
      as [(tok & Hin & Hs) | Hk].
    + exists tok. right. split; [|exact Hs].
      exists root, (k ++ "\PythonPath")%string, RRF_RT_REG_SZ, ps, paths, cb.
      split; [right; left; reflexivity | exact Hin].
    + exists k. left. split; [|right; exact Hk].
      exists root, i, MAX_PATH, cch. left. reflexivity.
Qed.

Lemma find_run_crashed t : find_run Crashed t -> overlong_in t.
Proof.
  inversion 1; subst.
  - apply overlong_in_cons. eapply scan_run_crashed; eauto.
  - do 2 apply overlong_in_cons. eapply scan_run_crashed; eauto.
Qed.

Lemma find_run_returned path t :
  find_run (Returned path) t ->
  exists opening root scan,
    t = opening ++ scan /\ opened root opening /\
    found_by_scan root path 0 scan.
Proof.
  inversion 1; subst.
  - eexists [_], root, _. split; [reflexivity|].
    split; [left; reflexivity|]. eapply scan_run_found. eassumption.
  - eexists [_; _], root, _. split; [reflexivity|].
    split; [right; eauto|]. eapply scan_run_found. eassumption.
Qed.

Lemma find_winsync_finishes (os : OS) (fuel : nat) (w : world os) (n : Z) :
  n < 2 ^ 32 -> n <= Z.of_nat fuel ->
  Forall (enumeration_ends_by n) (trace (find_winsync os fuel w)) ->
  outcome (find_winsync os fuel w) <> Unfinished.
Proof.
  intros Hn Hfuel.
  destruct (find_winsync os fuel w) as [[res w'] t] eqn:Hrun.
  unfold trace, outcome. simpl. intros Hall.
  unfold find_winsync in Hrun. unfold bind at 1 in Hrun.
  destruct (open_PythonCore_run os w)
    as [(root & w1 & r0 & h0 & [He | [H0 He]])
       |(w1 & r0 & h0 & r1 & h1 & te & H0 & H1 & Hrep & He)];
    rewrite He in Hrun; [| |inversion Hrun; discriminate];
    rewrite bind_RegEnumKeyEx in Hrun;
    destruct (sys_RegEnumKeyEx os _ _ _ w1) as [[[r k] cch] w2];
    destruct (enum_loop os fuel root r k _ MAX_PATH w2)
      as [[res' w3] t'] eqn:Hloop;
    inversion Hrun; subst;
    repeat match goal with
           | H : Forall _ (EvRegOpenKeyEx _ _ _ _ _ _ :: _) |- _ =>
               inversion H; clear H; subst
           end;
    (eapply enum_loop_finishes;
     [exact Hloop | lia | exact Hn | lia | eassumption]).
Qed.

(** C10, as the code has it.  When the key has no more than [n] subkeys
    and the loop is given that many turns, [find_winsync] ends in one of
    three ways: it returns, and what it returns is the InstallPath value of
    the install the scan found; or the process exits in [msg_exit] or
    [error_code_exit]; or the process ends in the invalid-parameter handler
    of the C runtime, a subkey name or a path token being too long for the
    bounded operation that builds a string from it.  Whatever the run,
    [_tWinMain] calls [CreateProcess] only with a command line and a working
    directory made from an InstallPath value so returned. *)
Theorem find_winsync_returns_only_on_success (os : OS) (fuel : nat)
    (lpCmdLine : string) (nCmdShow : Z) (w : world os) (n : Z) :
  let found := find_winsync os fuel w in
  let run := _tWinMain os fuel lpCmdLine nCmdShow w in
  n < 2 ^ 32 -> n <= Z.of_nat fuel ->
  Forall (enumeration_ends_by n) (trace found) ->
  ((exists path, returned_install_path found path) \/
   exited_with_report found \/
   rejected_overlong found) /\
  (forall e, In e (trace run) -> is_CreateProcess e ->
     exists path, returned_install_path found path /\ spawns_from path e).
Proof.
  intros found run Hn Hfuel Hall.
  pose proof (find_winsync_finishes os fuel w n Hn Hfuel Hall) as Hfin.
  pose proof (command_line_spawned os fuel lpCmdLine nCmdShow w) as Hspawn.
  fold found in Hfin, Hspawn. fold run in Hspawn.
  unfold returned_install_path, exited_with_report, rejected_overlong.
  subst found.
  destruct (find_winsync os fuel w) as [[res w'] t] eqn:Hrun.
  apply find_winsync_run in Hrun. unfold outcome, trace in *. simpl in *.
  split.
  - destruct res as [path|code| |].
    + left. exists path. split; [reflexivity|].
      apply find_run_returned. exact Hrun.
    + right. left. exists code. split; [reflexivity|].
      eapply find_run_exit; eauto.
    + right. right. split; [reflexivity|].
      apply find_run_crashed in Hrun. exact Hrun.
    + contradiction.
  - intros e Hin Hcp. destruct (Hspawn e Hin Hcp) as (path & -> & Hs).
    exists path. split; [|exact Hs]. split; [reflexivity|].
    apply find_run_returned. exact Hrun.
Qed.

(** ** The reference machine keeps the contracts assumed above *)

Lemma Win_waits_documented (h : HANDLE) (ms : DWORD) (m : Win.machine) :
  wait_documented (fst (sys_WaitForSingleObject Win.os h ms m)).
Proof.
  simpl. unfold Win.WaitForSingleObject, wait_documented.
  destruct (Win.child m); simpl; auto.
Qed.

Lemma Win_capacity_respected (m : Win.machine) (e : event) (m' : Win.machine) :
  answers Win.os m e m' -> capacity_respected e.
Proof.
  destruct e; simpl; auto.
  - unfold Win.RegEnumKeyEx.
    destruct (nth_error _ _) as [sk|]; [|intros H; inversion H; discriminate].
    destruct (tlen (Win.sk_name sk) + 1 <=? cchName) eqn:Hfit;
      intros H; inversion H; subst; [|discriminate].
    intros _. apply Z.leb_le. exact Hfit.
  - unfold Win.RegGetValue.
    destruct (Win.lookup_value _ _) as [v|].
    + destruct (Win.sizeof_TCHAR m * (tlen v + 1) <=? cbData) eqn:Hfit;
        intros H; inversion H; subst;
        [|split; intros; discriminate].
      apply Z.leb_le in Hfit. pose proof (tlen_nonneg pvData).
      split; [|intros; discriminate]. intros _.
      unfold Win.sizeof_TCHAR in *. destruct (Win.unicode _); lia.
    + intros H; inversion H; subst.
      split; [intros; discriminate | intros; apply Z.le_refl].
Qed.

Lemma Win_registry_and_files_kept (m : Win.machine) (e : event)
    (m' : Win.machine) :
  answers Win.os m e m' -> read_only e ->
  Sample.registry_and_files m' = Sample.registry_and_files m.
Proof.
  intros Hans _. destruct e; simpl in Hans;
    [ unfold Win.RegOpenKeyEx in Hans
    | unfold Win.RegEnumKeyEx in Hans
    | unfold Win.RegGetValue in Hans
    | unfold Win.GetFileAttributes in Hans
    | unfold Win.CreateProcess in Hans
    | unfold Win.WaitForSingleObject in Hans
    | unfold Win.CloseHandle in Hans
    | unfold Win.GetLastError in Hans
    | unfold Win.MessageBox in Hans
    | ];
    repeat match type of Hans with
           | context [match ?x with _ => _ end] => destruct x
           | context [if ?b then _ else _] => destruct b
           end;
    inversion Hans; subst; reflexivity.
Qed.

(** ** Concrete runs *)

(** The run on a machine with one interpreter and winsync installed. *)
Example typical_run :
  let run := Sample.launch 2 Sample.typical in
  outcome run = Returned tt /\
  trace run =
    [EvRegOpenKeyEx HKEY_LOCAL_MACHINE "SOFTWARE\Python\PythonCore" 0
       read_rights ERROR_SUCCESS Win.h_PythonCore;
     EvRegEnumKeyEx Win.h_PythonCore 0 MAX_PATH ERROR_SUCCESS "2.7" 3;
     EvRegGetValue Win.h_PythonCore "2.7\PythonPath" RRF_RT_REG_SZ MAX_PATH
       ERROR_SUCCESS
       "C:\Python27\Lib;C:\Python27\DLLs;C:\Python27\Lib\lib-tk" 112;
     EvGetFileAttributes "C:\Python27\Lib\site-packages\winsync"
       Win.FILE_ATTRIBUTE_DIRECTORY;
     EvRegGetValue Win.h_PythonCore "2.7\InstallPath" RRF_RT_REG_SZ 112
       ERROR_SUCCESS "C:\Python27\" 26;
     spawn "C:\Python27\" true {| hProcess := 0x200; hThread := 0x204 |};
     EvWaitForSingleObject 0x200 INFINITE WAIT_OBJECT_0;
     EvCloseHandle 0x200 true;
     EvCloseHandle 0x204 true].
Proof. split; vm_compute; reflexivity. Qed.

(** On a 64-bit machine with a 32-bit interpreter, three calls fail and
    the launcher goes on to run winsync to its end. *)
Lemma failures_survived_on_wow64 :
  let run := Sample.launch 3 Sample.wow64_only in
  outcome run = Returned tt /\
  ~ every_failure_is_terminal (outcome run) (trace run).
Proof.
  split; [vm_compute; reflexivity|].
  intros H.
  destruct (H []
              (EvRegOpenKeyEx HKEY_LOCAL_MACHINE "SOFTWARE\Python\PythonCore"
                 0 read_rights Win.ERROR_FILE_NOT_FOUND 0)
              (tl (trace (Sample.launch 3 Sample.wow64_only))))
    as (code & Hcode & _).
  - vm_compute. reflexivity.
  - simpl. discriminate.
  - vm_compute in Hcode. discriminate.
Qed.

(** An interpreter with winsync and no InstallPath value: the read that
    answers 2 is not one of the tolerated failures, and ends the process. *)
Lemma failures_are_terminal_witness :
  let run := Sample.launch 2 Sample.no_install_path in
  let e := EvRegGetValue Win.h_PythonCore "2.7\InstallPath" RRF_RT_REG_SZ 32
             Win.ERROR_FILE_NOT_FOUND EmptyString 32 in
  let post :=
    [EvMessageBox
       "RegGetValue (installpath) failed with error 2: The system cannot find the file specified."
       "Error" box_style;
     EvExitProcess 2] in
  trace run = firstn 4 (trace run) ++ e :: post /\
  call_failed e /\ ~ tolerated e /\
  exists code, outcome run = Exited code /\ ends_in_report post code.
Proof.
  intros run e post.
  assert (Ht : trace run = firstn 4 (trace run) ++ e :: post)
    by (vm_compute; reflexivity).
  assert (Hf : call_failed e) by (simpl; discriminate).
  assert (Hn : ~ tolerated e)
    by (simpl; intros [_ Hs]; vm_compute in Hs; discriminate).
  repeat split; try assumption.
  exact (failures_are_terminal_unless_tolerated Win.os 2
           Sample.no_arguments Sample.SW_SHOWNORMAL Sample.no_install_path
           (firstn 4 (trace run)) e post Ht Hf Hn).
Defined.


(** The flow on the machine on which everything goes well. *)
Lemma one_sequential_flow_witness :
  let found := Sample.locate 2 Sample.typical in
  let run := Sample.launch 2 Sample.typical in
  exists tl,
    trace run = trace found ++ tl /\
    Forall (fun e => ~ process_call e) (trace found) /\
    match outcome found with
    | Returned path =>
        (tl = [] /\ outcome run = Crashed /\ ~ fits (command_line path)) \/
        (exists pi e te,
           tl = spawn path false pi :: EvGetLastError e :: te /\
           reported "CreateProcess" e te /\ outcome run = Exited e) \/
        (exists pi wr tc,
           tl = spawn path true pi
                :: EvWaitForSingleObject (hProcess pi) INFINITE wr :: tc /\
           (wr = WAIT_OBJECT_0 /\ closes pi (outcome run) tc \/
            wr <> WAIT_OBJECT_0 /\ wait_error wr (outcome run) tc /\
            Forall (fun e => ~ is_CloseHandle e) tc))
    | _ => tl = [] /\ stopped (outcome found) = Some (outcome run)
    end.
Proof.
  exact (one_sequential_flow Win.os 2 Sample.no_arguments
           Sample.SW_SHOWNORMAL Sample.typical Win_waits_documented).
Defined.

(** The registry and the files of the reference machine after a run. *)
Lemma launcher_changes_nothing_witness :
  let run := Sample.launch 3 Sample.wow64_only in
  Forall read_only (trace run) /\
  Sample.registry_and_files (final run)
  = Sample.registry_and_files Sample.wow64_only.
Proof.
  exact (launcher_changes_nothing Win.os _ Sample.registry_and_files 3
           Sample.no_arguments Sample.SW_SHOWNORMAL Sample.wow64_only
           Win_registry_and_files_kept).
Defined.

(** The reference machine keeps within the capacities it is offered. *)
Lemma writes_stay_within_MAX_PATH_witness :
  let run := Sample.launch 2 Sample.typical in
  Forall within_buffers (trace run) /\
  (forall s,
     match tcscpy_s MAX_PATH s with
     | Some r => r = s /\ fits r
     | None => ~ fits s
     end) /\
  (forall d s,
     match tcscat_s d MAX_PATH s with
     | Some r => r = (d ++ s)%string /\ fits r
     | None => ~ fits (d ++ s)
     end).
Proof.
  exact (writes_stay_within_MAX_PATH Win.os 2 Sample.no_arguments
           Sample.SW_SHOWNORMAL Sample.typical Win_capacity_respected).
Defined.

(** A subkey of PythonCore with a name of 250 characters ends the launcher
    in the invalid-parameter handler: it neither returns nor exits through
    [msg_exit] or [error_code_exit]. *)
Lemma crash_on_long_subkey_name :
  let found := Sample.locate 2 Sample.long_subkey_name in
  outcome found = Crashed /\
  ~ ((exists path, returned_install_path found path) \/
     exited_with_report found).
Proof.
  intros found.
  assert (Hc : outcome found = Crashed) by (vm_compute; reflexivity).
  split; [exact Hc|].
  intros [(path & Hr & _) | (code & He & _)]; rewrite Hc in *; discriminate.
Qed.

(** One interpreter, one turn of the loop. *)
Lemma find_winsync_returns_witness :
  let found := Sample.locate 1 Sample.typical in
  let run := Sample.launch 1 Sample.typical in
  1 < 2 ^ 32 /\ 1 <= Z.of_nat 1 /\
  Forall (enumeration_ends_by 1) (trace found) /\
  ((exists path, returned_install_path found path) \/
   exited_with_report found \/
   rejected_overlong found) /\
  (forall e, In e (trace run) -> is_CreateProcess e ->
     exists path, returned_install_path found path /\ spawns_from path e).
Proof.
  intros found run.
  assert (H1 : 1 < 2 ^ 32) by reflexivity.
  assert (H2 : 1 <= Z.of_nat 1) by (simpl; lia).
  assert (H3 : Forall (enumeration_ends_by 1) (trace found))
    by (vm_compute; repeat constructor; intros Hle; elim Hle; reflexivity).
  repeat split; try assumption;
    apply (find_winsync_returns_only_on_success Win.os 1
             Sample.no_arguments Sample.SW_SHOWNORMAL Sample.typical
             1 H1 H2 H3).
Defined.

(** ** Properties of every run *)

(** *** The error text fits its buffer *)

Lemma substring_all (s : string) (n : nat) :
  (String.length s <= n)%nat -> substring 0 n s = s.
Proof.
  revert n. induction s as [|c s IH]; intros n Hn.
  - destruct n; reflexivity.
  - destruct n as [|n]; simpl in Hn; [lia|].
    simpl. rewrite IH by lia. reflexivity.
Qed.

Lemma usize_nb_digits (d : Decimal.uint) :
  DecimalPos.Unsigned.usize d = N.of_nat (Decimal.nb_digits d).
Proof.
  induction d; simpl DecimalPos.Unsigned.usize; simpl Decimal.nb_digits;
    try rewrite IHd; lia.
Qed.

Lemma to_uint_normal (p : positive) :
  Decimal.unorm (Pos.to_uint p) = Pos.to_uint p.
Proof.
  rewrite <- DecimalPos.Unsigned.to_of, DecimalPos.Unsigned.of_to.
  reflexivity.
Qed.

Lemma of_uint_acc_lower (d : Decimal.uint) (acc : positive) :
  (10 ^ N.of_nat (Decimal.nb_digits d) <= N.pos (Pos.of_uint_acc d acc))%N.
Proof.
  rewrite DecimalPos.Unsigned.of_uint_acc_rev, usize_nb_digits.
  assert (H : (1 * 10 ^ N.of_nat (Decimal.nb_digits d)
               <= N.pos acc * 10 ^ N.of_nat (Decimal.nb_digits d))%N)
    by (apply N.mul_le_mono_r; lia).
  lia.
Qed.

(** A positive number below [10 ^ k] is written with at most [k] digits. *)
Lemma nb_digits_to_uint (p : positive) (k : nat) :
  (N.pos p < 10 ^ N.of_nat k)%N ->
  (Decimal.nb_digits (Pos.to_uint p) <= k)%nat.
Proof.
  intros Hp.
  pose proof (to_uint_normal p) as Hn.
  pose proof (DecimalPos.Unsigned.of_to p) as Hv.
  pose proof (DecimalPos.Unsigned.to_uint_nonzero p) as Hz.
  destruct (Pos.to_uint p) as [|d|d|d|d|d|d|d|d|d|d] eqn:Hd;
    [simpl in Hv; discriminate
    | 
    | simpl in Hv;
      pose proof (of_uint_acc_lower d) as Hl;
      match type of Hv with
      | N.pos (Pos.of_uint_acc d ?a) = _ => specialize (Hl a)
      end;
      rewrite Hv in Hl;
      assert (Hlt : (10 ^ N.of_nat (Decimal.nb_digits d) < 10 ^ N.of_nat k)%N)
        by lia;
      apply N.pow_lt_mono_r_iff in Hlt; [simpl; lia | lia] .. ].
  rewrite DecimalFacts.unorm_D0 in Hn.
  destruct d as [|d'|d'|d'|d'|d'|d'|d'|d'|d'|d'];
    try (exfalso; apply Hz; reflexivity);
    match type of Hn with
    | Decimal.unorm ?u = _ =>
        assert (Hne : u <> Decimal.Nil) by discriminate;
        pose proof (DecimalFacts.nb_digits_unorm u Hne) as Hle;
        rewrite Hn in Hle; simpl in Hle; lia
    end.
Qed.

Lemma string_of_uint_length (d : Decimal.uint) :
  String.length (NilEmpty.string_of_uint d) = Decimal.nb_digits d.
Proof.
  induction d; simpl; try rewrite IHd; reflexivity.
Qed.

Lemma NilZero_string_of_uint_length (p : positive) :
  String.length (NilZero.string_of_uint (Pos.to_uint p))
  = Decimal.nb_digits (Pos.to_uint p).
Proof.
  pose proof (DecimalPos.Unsigned.to_uint_nonnil p) as Hn.
  unfold NilZero.string_of_uint.
  destruct (Pos.to_uint p); try contradiction;
    apply string_of_uint_length.
Qed.

Lemma as_int_range (d : DWORD) : - 2 ^ 31 <= as_int d < 2 ^ 31.
Proof.
  unfold as_int. cbv zeta.
  pose proof (Z.mod_pos_bound d (2 ^ 32) ltac:(lia)) as Hm.
  destruct (d mod 2 ^ 32 <? 2 ^ 31) eqn:Hlt;
    [apply Z.ltb_lt in Hlt | apply Z.ltb_ge in Hlt]; lia.
Qed.

(** [%d] writes a 32-bit integer with at most eleven characters. *)
Lemma format_d_length (d : DWORD) : tlen (format_d d) <= 11.
Proof.
  unfold format_d, tlen.
  pose proof (as_int_range d) as Hr.
  destruct (as_int d) as [|p|p]; simpl Z.to_int.
  - simpl. lia.
  - unfold NilZero.string_of_int.
    rewrite NilZero_string_of_uint_length.
    assert (H : (Decimal.nb_digits (Pos.to_uint p) <= 10)%nat)
      by (apply nb_digits_to_uint; change (10 ^ N.of_nat 10)%N with 10000000000%N; lia).
    lia.
  - unfold NilZero.string_of_int.
    change (String.length (String "-" ?s)) with (S (String.length s)).
    cbn [String.length].
    rewrite NilZero_string_of_uint_length.
    assert (H : (Decimal.nb_digits (Pos.to_uint p) <= 10)%nat)
      by (apply nb_digits_to_uint; change (10 ^ N.of_nat 10)%N with 10000000000%N; lia).
    lia.
Qed.

(** X7.  The display buffer of [error_code_exit] always holds the
    whole text: with its terminator the text takes at most 33 characters
    more than the name of the function and the system message together,
    and the buffer is allocated 40 more; so [StringCchPrintf], bounded by
    the size of the buffer (the size asked for, or more when the allocator
    rounds up), never cuts the text shown in the message box. *)
Theorem error_text_is_never_cut (lpszFunction lpMsgBuf : string)
    (error_code : DWORD) (rounding : nat) :
  let text := error_text lpszFunction error_code lpMsgBuf in
  let size := display_size lpMsgBuf lpszFunction in
  tlen text + 1 <= tlen lpszFunction + tlen lpMsgBuf + 33 /\
  tlen text + 1 <= size /\
  StringCchPrintf (size + Z.of_nat rounding) text = text.
Proof.
  intros text size.
  assert (Hlen : tlen text + 1 <= tlen lpszFunction + tlen lpMsgBuf + 33).
  { subst text. unfold error_text. rewrite !tlen_append.
    pose proof (format_d_length error_code).
    change (tlen " failed with error ") with 19.
    change (tlen ": ") with 2. lia. }
  subst size. unfold display_size.
  split; [exact Hlen|]. split; [lia|].
  unfold StringCchPrintf. apply substring_all.
  unfold tlen in *. lia.
Qed.

(** *** One message box, and only on exit *)

Lemma one_dialog_cons {A : Type} (r : result A) (e : event) (t : list event) :
  silent e -> one_dialog r t -> one_dialog r (e :: t).
Proof.
  intros He. destruct r as [a|code| |]; simpl;
    try (intros Ht; constructor; assumption).
  intros (pre & text & caption & -> & Hpre & Hcap).
  exists (e :: pre), text, caption.
  split; [reflexivity|]. split; [constructor; assumption | exact Hcap].
Qed.

Lemma one_dialog_app {A : Type} (r : result A) (t0 t : list event) :
  Forall silent t0 -> one_dialog r t -> one_dialog r (t0 ++ t).
Proof.
  induction 1 as [|e t0 He _ IH]; intros Ht; simpl; [exact Ht|].
  apply one_dialog_cons; auto.
Qed.

Lemma one_dialog_reported {A : Type} f c te :
  reported f c te -> one_dialog (Exited c : result A) te.
Proof.
  intros (msg & ->). exists [], (error_text f c msg), "Error".
  repeat split; auto.
Qed.

Lemma one_dialog_announced {A : Type} msg :
  one_dialog (Exited 255 : result A) (announced msg).
Proof.
  exists [], msg, "ERROR". repeat split; auto.
Qed.

Lemma one_dialog_after r res t :
  after_tokens r = Some res -> one_dialog r t -> one_dialog res t.
Proof.
  destruct r as [[path|]|code| |]; simpl; intros H; inversion H; subst;
    simpl; auto.
Qed.

Lemma one_dialog_stopped {A B : Type} (r : result A) (r' : result B) t :
  stopped r = Some r' -> one_dialog r t -> one_dialog r' t.
Proof.
  destruct r as [a|code| |]; simpl; intros H; inversion H; subst;
    simpl; auto.
Qed.

Lemma token_run_dialog root k ps toks r t :
  token_run root k ps toks r t -> one_dialog r t.
Proof.
  induction 1; unfold probe;
    repeat (apply one_dialog_cons; [exact I|]);
    eauto using one_dialog_reported; simpl; auto.
Qed.

Lemma scan_run_dialog root i ps res t :
  scan_run root i ps res t -> one_dialog res t.
Proof.
  induction 1;
    repeat (apply one_dialog_cons; [exact I|]);
    eauto using one_dialog_reported, one_dialog_announced;
    try (simpl; auto; fail).
  - apply one_dialog_app; [|assumption].
    apply token_run_dialog in H0. exact H0.
  - eapply one_dialog_after; [eassumption|].
    eapply token_run_dialog; eassumption.
Qed.

Lemma find_run_dialog res t : find_run res t -> one_dialog res t.
Proof.
  destruct 1; repeat (apply one_dialog_cons; [exact I|]);
    eauto using one_dialog_reported, scan_run_dialog.
Qed.

Lemma launch_run_dialog path r t : launch_run path r t -> one_dialog r t.
Proof.
  destruct 1; unfold spawn;
    repeat (apply one_dialog_cons; [exact I|]);
    eauto using one_dialog_reported, one_dialog_announced;
    simpl; auto.
Qed.

(** X6.  A run of the launcher that exits shows exactly one message
    box, captioned Error or ERROR, as its last call but one, and exits
    right after it; a run that does not exit (the child was waited for and
    its handles closed, or the C runtime ended the process) shows no
    message box at all. *)
Theorem one_message_box_and_only_on_exit (os : OS) (fuel : nat)
    (lpCmdLine : string) (nCmdShow : Z) (w : world os) :
  let run := _tWinMain os fuel lpCmdLine nCmdShow w in
  one_dialog (outcome run) (trace run).
Proof.
  intros run. subst run.
  destruct (_tWinMain os fuel lpCmdLine nCmdShow w) as [[r w'] t] eqn:Hrun.
  apply tWinMain_run in Hrun. unfold outcome, trace. simpl.
  destruct Hrun as [rf r' t Hfind Hs | path t r' t' Hfind Hl].
  - eapply one_dialog_stopped; [exact Hs|]. apply find_run_dialog. exact Hfind.
  - apply one_dialog_app.
    + apply find_run_dialog in Hfind. exact Hfind.
    + eapply launch_run_dialog. exact Hl.
Qed.

(** *** A probe that finds winsync ends the scan *)

Lemma hits_end_scan_split res pre p attrs post :
  forall cur,
    hits_end_scan res cur (pre ++ EvGetFileAttributes p attrs :: post) ->
    attrs <> INVALID_FILE_ATTRIBUTES ->
    exists root k,
      visiting cur pre = Some (root, k) /\ install_path_read res root k post.
Proof.
  induction pre as [|e pre IH]; intros cur H Hattrs.
  - simpl in H. destruct H as [H _]. apply H. exact Hattrs.
  - destruct e; simpl in H |- *; try (apply IH; assumption).
    destruct H as [_ H]. apply IH; assumption.
Qed.

Lemma hits_end_scan_reported res cur f c te :
  reported f c te -> hits_end_scan res cur te.
Proof. intros (msg & ->). simpl. exact I. Qed.

Lemma hits_end_scan_misses res cur toks t :
  hits_end_scan res cur t ->
  hits_end_scan res cur (map probe_missed toks ++ t).
Proof.
  intros Ht. induction toks as [|tok toks IH]; simpl; [exact Ht|].
  split; [|exact IH]. intros Hne. exfalso. apply Hne. reflexivity.
Qed.

Lemma token_run_hits root k ps toks r t :
  token_run root k ps toks r t ->
  forall res, after_tokens r = Some res ->
  hits_end_scan res (Some (root, k)) t.
Proof.
  induction 1; intros res Hres; simpl in Hres; inversion Hres; subst;
    simpl; try exact I.
  - split; [|apply IHtoken_run; exact Hres].
    intros Hne. exfalso. apply Hne. reflexivity.
  - split; [|exact I]. intros _. exists root, k.
    split; [reflexivity|]. left. auto.
  - split; [|eapply hits_end_scan_reported; eassumption].
    intros _. exists root, k. split; [reflexivity|].
    right. exists ps, r, data, cb, te. split; [reflexivity|].
    right. auto.
  - split; [|exact I]. intros _. exists root, k.
    split; [reflexivity|].
    right. exists ps, ERROR_SUCCESS, data, cb, [].
    split; [reflexivity|]. left. auto.
Qed.

Lemma scan_run_hits root i ps res t :
  scan_run root i ps res t -> forall cur, hits_end_scan res cur t.
Proof.
  induction 1; intros cur; simpl; try exact I.
  - eapply hits_end_scan_reported; eassumption.
  - eapply hits_end_scan_reported; eassumption.
  - apply IHscan_run.
  - apply token_run_missed in H0. subst tt.
    apply hits_end_scan_misses. apply IHscan_run.
  - eapply token_run_hits; eassumption.
Qed.

Lemma find_run_hits res t : find_run res t -> hits_end_scan res None t.
Proof.
  destruct 1; simpl; eauto using scan_run_hits, hits_end_scan_reported.
Qed.

(** X1.  In every run of [find_winsync], a probe that does not answer
    INVALID_FILE_ATTRIBUTES (whatever attributes it answers, those of a
    directory or not) ends the scan: the next call, if the name fits its
    buffer, is the read of the InstallPath value of the subkey being
    visited, that of the last enumeration, under the same key; when the
    read succeeds the function returns that value and does nothing more,
    and when it fails the code is reported and is the exit status.  No
    further entry of the value and no further subkey is looked at. *)
Theorem found_install_ends_the_scan (os : OS) (fuel : nat) (w : world os)
    (pre : list event) (p : string) (attrs : DWORD) (post : list event) :
  let found := find_winsync os fuel w in
  trace found = pre ++ EvGetFileAttributes p attrs :: post ->
  attrs <> INVALID_FILE_ATTRIBUTES ->
  exists root k,
    visiting None pre = Some (root, k) /\
    install_path_read (outcome found) root k post.
Proof.
  intros found Ht Hattrs. subst found.
  destruct (find_winsync os fuel w) as [[res w'] t] eqn:Hrun.
  apply find_winsync_run in Hrun. unfold outcome, trace in *. simpl in *.
  apply find_run_hits in Hrun. rewrite Ht in Hrun.
  eapply hits_end_scan_split; eassumption.
Qed.

(** *** The paths probed are the entries of the value *)

Lemma is_delim_semicolon (c : ascii) :
  is_delim ";" c = true <-> c = ";"%char.
Proof.
  simpl. destruct (Ascii.eqb c ";") eqn:E.
  - apply Ascii.eqb_eq in E. tauto.
  - apply Ascii.eqb_neq in E. split; [discriminate | contradiction].
Qed.

Lemma delim_or_start_cons (d : string) (c : ascii) (a : string) :
  is_delim d c = true \/ a <> EmptyString ->
  delim_or_start d a -> delim_or_start d (String c a).
Proof.
  intros Hc [-> | (a' & c' & -> & Hc')].
  - destruct Hc as [Hc | Hc]; [|contradiction].
    right. exists EmptyString, c. split; [reflexivity | exact Hc].
  - right. exists (String c a'), c'. split; [reflexivity | exact Hc'].
Qed.

(** The fields of a value: the first one starts the value, each other one
    follows a delimiter; each one has no delimiter and runs to a
    delimiter or to the end. *)
Lemma fields_stretches (d s : string) :
  exists f0 fs,
    fields d s = f0 :: fs /\
    (no_delim d f0 /\
     exists after, s = (f0 ++ after)%string /\ delim_or_end d after) /\
    forall f, In f fs ->
      no_delim d f /\
      exists before after,
        s = (before ++ f ++ after)%string /\
        before <> EmptyString /\
        delim_or_start d before /\ delim_or_end d after.
Proof.
  induction s as [|c s IH]; simpl.
  - exists EmptyString, []. split; [reflexivity|].
    split; [|intros f []].
    split; [exact I|]. exists EmptyString. split; [reflexivity | exact I].
  - destruct IH as (f0 & fs & Hf & (Hn0 & after0 & Hs0 & Ha0) & Hrest).
    destruct (is_delim d c) eqn:Hc.
    + exists EmptyString, (fields d s). split; [reflexivity|].
      split.
      * split; [exact I|]. exists (String c s).
        split; [reflexivity | exact Hc].
      * intros f Hin. rewrite Hf in Hin. destruct Hin as [<- | Hin].
        -- split; [exact Hn0|].
           exists (String c EmptyString), after0.
           split; [simpl; now rewrite <- Hs0|].
           split; [discriminate|]. split; [|exact Ha0].
           right. exists EmptyString, c. split; [reflexivity | exact Hc].
        -- destruct (Hrest f Hin) as (Hn & before & after & Hs & Hb & Hds & Hde).
           split; [exact Hn|].
           exists (String c before), after.
           split; [simpl; now rewrite <- Hs|].
           split; [discriminate|]. split; [|exact Hde].
           apply delim_or_start_cons; auto.
    + rewrite Hf. exists (String c f0), fs. split; [reflexivity|].
      split.
      * split; [split; assumption|]. exists after0.
        split; [simpl; now rewrite <- Hs0 | exact Ha0].
      * intros f Hin.
        destruct (Hrest f Hin) as (Hn & before & after & Hs & Hb & Hds & Hde).
        split; [exact Hn|].
        exists (String c before), after.
        split; [simpl; now rewrite <- Hs|].
        split; [discriminate|]. split; [|exact Hde].
        apply delim_or_start_cons; auto.
Qed.

(** A token of a value is one of its entries. *)
Lemma tokens_entries (d s tok : string) :
  In tok (tokens d s) -> entry_of d s tok.
Proof.
  unfold tokens. intros Hin. apply filter_In in Hin.
  destruct Hin as [Hin Hne].
  assert (Hnonempty : tok <> EmptyString) by (intros ->; discriminate).
  destruct (fields_stretches d s)
    as (f0 & fs & Hf & (Hn0 & after0 & Hs0 & Ha0) & Hrest).
  rewrite Hf in Hin. destruct Hin as [<- | Hin].
  - split; [exact Hnonempty|]. split; [exact Hn0|].
    exists EmptyString, after0.
    split; [exact Hs0|]. split; [left; reflexivity | exact Ha0].
  - destruct (Hrest tok Hin) as (Hn & before & after & Hs & _ & Hds & Hde).
    split; [exact Hnonempty|]. split; [exact Hn|].
    exists before, after. auto.
Qed.

Lemma probes_tokens_split pre p attrs post :
  forall cur,
    probes_tokens cur (pre ++ EvGetFileAttributes p attrs :: post) ->
    exists value tok,
      value_in_hand cur pre = Some value /\
      In tok (tokens ";" value) /\
      p = (tok ++ "\site-packages\winsync")%string.
Proof.
  induction pre as [|e pre IH]; intros cur H.
  - simpl in H. destruct H as [H _]. exact H.
  - destruct e; simpl in H |- *; try (apply IH; assumption).
    destruct H as [_ H]. apply IH; assumption.
Qed.

Lemma probes_tokens_reported cur f c te :
  reported f c te -> probes_tokens cur te.
Proof. intros (msg & ->). simpl. exact I. Qed.

Lemma token_run_probes root k ps toks r t :
  token_run root k ps toks r t ->
  forall value,
    (forall tok, In tok toks -> In tok (tokens ";" value)) ->
    probes_tokens (Some value) t.
Proof.
  induction 1; intros value Hall; simpl; try exact I.
  - split; [|apply IHtoken_run; intros; apply Hall; right; assumption].
    exists value, tok. split; [reflexivity|].
    split; [apply Hall; left; reflexivity | reflexivity].
  - split; [|exact I].
    exists value, tok. split; [reflexivity|].
    split; [apply Hall; left; reflexivity | reflexivity].
  - split; [|eapply probes_tokens_reported; eassumption].
    exists value, tok. split; [reflexivity|].
    split; [apply Hall; left; reflexivity | reflexivity].
  - split; [|exact I].
    exists value, tok. split; [reflexivity|].
    split; [apply Hall; left; reflexivity | reflexivity].
Qed.

Lemma probes_tokens_app cur t1 t2 :
  (forall e, In e t1 -> ~ is_RegGetValue e) ->
  probes_tokens cur t1 -> probes_tokens cur t2 ->
  probes_tokens cur (t1 ++ t2).
Proof.
  intros Hno H1 H2. induction t1 as [|e t1 IH]; simpl; [exact H2|].
  assert (IH' : probes_tokens cur (t1 ++ t2)).
  { apply IH; [intros e' He'; apply Hno; right; exact He'|].
    destruct e; simpl in H1; try exact H1.
    - exfalso. apply (Hno _ (or_introl eq_refl)). exact I.
    - destruct H1 as [_ H1]. exact H1. }
  destruct e; simpl in H1 |- *; try exact IH'.
  - exfalso. apply (Hno _ (or_introl eq_refl)). exact I.
  - destruct H1 as [H1 _]. split; [exact H1 | exact IH'].
Qed.

Lemma scan_run_probes root i ps res t :
  scan_run root i ps res t -> forall cur, probes_tokens cur t.
Proof.
  induction 1; intros cur; simpl; try exact I.
  - eapply probes_tokens_reported; eassumption.
  - eapply probes_tokens_reported; eassumption.
  - apply IHscan_run.
  - apply probes_tokens_app.
    + apply token_run_missed in H0. subst tt.
      intros e He. apply in_map_iff in He. destruct He as (tok & <- & _).
      simpl. auto.
    + eapply token_run_probes; [eassumption | auto].
    + apply IHscan_run.
  - eapply token_run_probes; [eassumption | auto].
Qed.

Lemma find_run_probes res t : find_run res t -> probes_tokens None t.
Proof.
  destruct 1; simpl; eauto using scan_run_probes, probes_tokens_reported.
Qed.

(** X2.  Every path [find_winsync] probes is an entry of the value
    read last before the probe, followed by \site-packages\winsync, where
    an entry is a non-empty stretch of the value without a semicolon that
    runs from the start of the value or a semicolon to a semicolon or the
    end.  So an empty entry (a leading, a trailing or a doubled semicolon)
    is never probed, and no path is probed before a value has been read. *)
Theorem probes_are_entries_of_the_value (os : OS) (fuel : nat)
    (w : world os) (pre : list event) (p : string) (attrs : DWORD)
    (post : list event) :
  trace (find_winsync os fuel w) = pre ++ EvGetFileAttributes p attrs :: post ->
  exists value entry,
    value_in_hand None pre = Some value /\
    entry_of ";" value entry /\
    p = (entry ++ "\site-packages\winsync")%string.
Proof.
  intros Ht.
  destruct (find_winsync os fuel w) as [[res w'] t] eqn:Hrun.
  apply find_winsync_run in Hrun. unfold trace in Ht. simpl in Ht.
  apply find_run_probes in Hrun. rewrite Ht in Hrun.
  apply probes_tokens_split in Hrun.
  destruct Hrun as (value & tok & Hv & Hin & Hp).
  exists value, tok. split; [exact Hv|].
  split; [apply tokens_entries; exact Hin | exact Hp].
Qed.

(** *** The search that finds nothing is complete *)






(** *** The longest InstallPath that can be launched *)

Lemma fits_command_line_234 (path : string) :
  fits (command_line path) <-> tlen path <= 234.
Proof.
  unfold fits, command_line. rewrite !tlen_append.
  change (tlen "python.exe") with 10.
  change (tlen " -m winsync.run") with 15.
  unfold MAX_PATH. lia.
Qed.

(** X5.  When [find_winsync] returns a path of at most 234 characters,
    [_tWinMain] goes on to call [CreateProcess] with the command line and
    the working directory made from it.  When the path is longer (the
    buffer of [MAX_PATH] elements holds up to 259), the bounded
    concatenation of python.exe and of the argument rejects it: the C
    runtime ends the process with no process created, no message box and
    no call after those of [find_winsync]. *)
Theorem install_path_of_234_characters (os : OS) (fuel : nat)
    (lpCmdLine : string) (nCmdShow : Z) (w : world os) (path : string) :
  let found := find_winsync os fuel w in
  let run := _tWinMain os fuel lpCmdLine nCmdShow w in
  outcome found = Returned path ->
  (tlen path <= 234 ->
   exists ok pi rest, trace run = trace found ++ spawn path ok pi :: rest) /\
  (234 < tlen path -> outcome run = Crashed /\ trace run = trace found).
Proof.
  intros found run Hret. subst found run.
  destruct (_tWinMain os fuel lpCmdLine nCmdShow w) as [[r w'] t] eqn:Hrun.
  destruct (find_winsync os fuel w) as [[rf w1] tf] eqn:Hfind.
  pose proof (tWinMain_launch _ _ _ _ _ _ _ _ _ _ _ Hrun Hfind) as Hl.
  unfold trace, outcome in *. simpl in *. subst rf.
  destruct Hl as (tl & -> & Hlaunch).
  split.
  - intros Hlen. apply fits_command_line_234 in Hlen.
    destruct Hlaunch; try contradiction; eexists _, _, _; reflexivity.
  - intros Hlen.
    assert (Hno : ~ fits (command_line path))
      by (rewrite fits_command_line_234; lia).
    destruct Hlaunch; try contradiction.
    split; [reflexivity | now rewrite app_nil_r].
Qed.

(** *** The values read never grow *)

Lemma values_read_report t code : ends_in_report t code -> values_read t = [].
Proof.
  intros (text & caption & [-> | ->]); reflexivity.
Qed.

Lemma values_read_shrink (sz : Z) (oc : option DWORD) (t : list event) :
  0 < sz ->
  forall ps,
    sizes_threaded ps t -> handled oc t ->
    Forall (read_as_documented sz) t ->
    Forall (fun v => sz * (tlen v + 1) <= ps) (values_read t) /\
    Sorted.StronglySorted (fun v v' => tlen v' <= tlen v) (values_read t).
Proof.
  intros Hsz. induction t as [|e t IH]; intros ps Hs Hh Hd.
  - split; constructor.
  - destruct Hh as [Hfatal Hh]. inversion Hd as [|e' t' He Hd']; subst.
    destruct e as [| |h s fl cb r data cb'| | | | | | |];
      simpl in Hs |- *; try (apply IH; assumption).
    destruct Hs as [-> Hs]. simpl in He. destruct He as [Hok Hskip].
    destruct (r =? ERROR_SUCCESS) eqn:Hr.
    + apply Z.eqb_eq in Hr. destruct (Hok Hr) as [Hcb Hle].
      destruct (IH _ Hs Hh Hd') as [Hbound Hsorted].
      split.
      * constructor; [lia|].
        eapply Forall_impl; [|exact Hbound]. simpl. intros v Hv. lia.
      * constructor; [exact Hsorted|].
        eapply Forall_impl; [|exact Hbound]. simpl. intros v Hv. nia.
    + apply Z.eqb_neq in Hr.
      destruct (Z.eq_dec r 2) as [H2 | H2].
      * destruct (IH _ Hs Hh Hd') as [Hbound Hsorted].
        split; [|exact Hsorted].
        eapply Forall_impl; [|exact Hbound]. simpl. intros v Hv.
        specialize (Hskip H2). lia.
      * destruct Hfatal as (code & _ & Hend).
        -- exact Hr.
        -- simpl. intros [H _]. contradiction.
        -- rewrite (values_read_report _ _ Hend). split; constructor.
Qed.

(** X4.  Let [RegGetValue] behave as documented for characters of
    [sz] bytes.  Then in every run of [find_winsync] each value read takes,
    with its terminator, at most [MAX_PATH] bytes (the size variable
    counts bytes and starts at the number of elements of the buffers: with
    two-byte characters a value of more than 129 characters cannot be
    read), and no value read is longer than one read before it: the size
    variable is left at what the last read wrote back. *)
Theorem values_read_never_grow (os : OS) (sz : Z) (fuel : nat)
    (w : world os) :
  let found := find_winsync os fuel w in
  0 < sz ->
  Forall (read_as_documented sz) (trace found) ->
  Forall (fun v => sz * (tlen v + 1) <= MAX_PATH) (values_read (trace found)) /\
  Sorted.StronglySorted (fun v v' => tlen v' <= tlen v)
    (values_read (trace found)).
Proof.
  intros found Hsz Hdoc. subst found.
  pose proof (find_winsync_sizes os fuel w) as Hs.
  destruct (find_winsync os fuel w) as [[res w'] t] eqn:Hrun.
  apply find_winsync_run in Hrun. unfold trace in *. simpl in *.
  apply find_run_handled in Hrun.
  eapply values_read_shrink; eassumption.
Qed.

(** ** Concrete runs for the properties of every run *)

(** The probe that finds winsync on the machine with one interpreter. *)
Lemma found_install_ends_the_scan_witness :
  let found := Sample.locate 1 Sample.typical in
  let pre := firstn 3 (trace found) in
  let post :=
    [EvRegGetValue Win.h_PythonCore "2.7\InstallPath" RRF_RT_REG_SZ 112
       ERROR_SUCCESS "C:\Python27\" 26] in
  exists root k,
    visiting None pre = Some (root, k) /\
    install_path_read (outcome found) root k post.
Proof.
  intros found pre post.
  apply (found_install_ends_the_scan Win.os 1 Sample.typical pre
           "C:\Python27\Lib\site-packages\winsync"
           Win.FILE_ATTRIBUTE_DIRECTORY post).
  - vm_compute. reflexivity.
  - discriminate.
Defined.

(** The second probe on the machine with 32-bit interpreters only. *)
Lemma probes_are_entries_of_the_value_witness :
  let found := Sample.locate 2 Sample.wow64_only in
  let pre := firstn 7 (trace found) in
  exists value entry,
    value_in_hand None pre = Some value /\
    entry_of ";" value entry /\
    "C:\Python27\DLLs\site-packages\winsync"
    = (entry ++ "\site-packages\winsync")%string.
Proof.
  intros found pre.
  apply (probes_are_entries_of_the_value Win.os 2 Sample.wow64_only pre
           "C:\Python27\DLLs\site-packages\winsync"
           Win.FILE_ATTRIBUTE_DIRECTORY (skipn 8 (trace found))).
  vm_compute. reflexivity.
Defined.

(** The path found on the machine with one interpreter has 12 characters. *)
Lemma install_path_of_234_characters_witness :
  let found := Sample.locate 1 Sample.typical in
  let run := Sample.launch 1 Sample.typical in
  (tlen "C:\Python27\" <= 234 ->
   exists ok pi rest,
     trace run = trace found ++ spawn "C:\Python27\" ok pi :: rest) /\
  (234 < tlen "C:\Python27\" ->
   outcome run = Crashed /\ trace run = trace found).
Proof.
  apply (install_path_of_234_characters Win.os 1 Sample.no_arguments
           Sample.SW_SHOWNORMAL Sample.typical "C:\Python27\").
  vm_compute. reflexivity.
Defined.

(** Two values are read on the machine with one interpreter, in a Unicode
    build: the PythonPath value, of 55 characters, and the InstallPath
    value, of 12. *)
Lemma values_read_never_grow_witness :
  let found := Sample.locate 1 Sample.typical in
  Forall (fun v => 2 * (tlen v + 1) <= MAX_PATH) (values_read (trace found)) /\
  Sorted.StronglySorted (fun v v' => tlen v' <= tlen v)
    (values_read (trace found)).
Proof.
  apply (values_read_never_grow Win.os 2 1 Sample.typical).
  - reflexivity.
  - unfold trace. vm_compute snd.
    repeat (apply Forall_cons; [simpl; try exact I|]);
      try apply Forall_nil;
      (split; [intros _; split; [reflexivity | discriminate]
              | intros; discriminate]).
Defined.
